(** * A shallow embedding of gookit/ext [lcache] (cache.go, lcache.go)

    The cache engine of [lcache/cache.go]: an items map, an LRU list
    from Go's [container/list] with an index [lruMap] from keys to list
    elements, lazy expiry and file snapshots through a named serializer.

    Conventions of the model:
    - clock readings [now] are Unix times in nanoseconds (what
      [time.Now()] holds); [UnixMilli] turns them into the milliseconds
      stored in [Item.Exp];
    - Go's [any] is the inductive [Value], restricted to the dynamic
      types the development stores;
    - a [*list.Element] is a record with a unique id (its identity) and
      its [Value] (the key); [lruMap] maps keys to elements;
    - the eviction callback [OnEvicted] is a flag saying whether one is
      installed; its calls are recorded, oldest first, in [evlog];
    - Go map iteration order is unspecified: loops over a Go map run over
      [map_to_list], and the loop bodies are also defined on arbitrary
      lists, so that lemmas about them hold for every iteration order. *)

From Stdlib Require Import ZArith Lia.
From stdpp Require Import base gmap strings list.

Module LCache.

(** ** Values, items, expiry (cache.go:14-34) *)

(** The kinds of Go values that [encoding/json] cannot encode at all. *)
Inductive OpaqueKind := KFunc | KChan | KComplex.

(** Go's [any] as far as the cache stores it. [VInt n] is a Go [int]
    (64 bits: [-2^63 <= n < 2^63]); [VFloat64 n] is the finite float64
    holding the integral value [n] (of the finite float64 values, only
    the integral ones are modelled); [VFloat64NaN] and [VFloat64Inf neg]
    are NaN and the infinities; [VStr s] is a Go string, its bytes;
    [VOpaque k] is a func, chan or complex128 value. *)
Inductive Value :=
| VNil
| VBool (b : bool)
| VInt (n : Z)
| VFloat64 (n : Z)
| VFloat64NaN
| VFloat64Inf (neg : bool)
| VStr (s : string)
| VOpaque (k : OpaqueKind).

(** [type Item struct { Val any; Exp int64 }]; [Exp = 0] means never. *)
Record Item := mkItem { Val : Value; Exp : Z }.

(** [t.UnixMilli()] of a time held in Unix nanoseconds. *)
Definition UnixMilli (now : Z) : Z := Z.div now 1000000.

(** [func (i *Item) isExpired1(nowUm int64) bool] *)
Definition isExpired1 (i : Item) (nowUm : Z) : bool :=
  if Z.eqb (Exp i) 0 then false else Z.ltb (Exp i) nowUm.

(** [func (i *Item) isExpired() bool], reading the clock [now]. *)
Definition isExpired (i : Item) (now : Z) : bool :=
  isExpired1 i (UnixMilli now).

(** ** Go's [container/list] *)

(** A [*list.Element]: [elem_id] is the identity of the pointer,
    [elem_value] its [Value] field (always a key here). *)
Record Element := mkElem { elem_id : nat; elem_value : string }.

(** A [list.List]: its elements front first, and the next fresh id
    (a fresh allocation for [PushFront]). *)
Record GoList := mkList { l_elems : list Element; l_next : nat }.

Definition list_New : GoList := mkList [] 0.

(** [l.Len()] *)
Definition list_Len (l : GoList) : Z := Z.of_nat (length (l_elems l)).

(** [l.Init()]: the list becomes empty. *)
Definition list_Init (l : GoList) : GoList := mkList [] (l_next l).

(** [l.PushFront(v)] returns the new element. *)
Definition list_PushFront (v : string) (l : GoList) : Element * GoList :=
  let e := mkElem (l_next l) v in
  (e, mkList (e :: l_elems l) (S (l_next l))).

Definition not_elem (e : Element) (x : Element) : bool :=
  negb (Nat.eqb (elem_id x) (elem_id e)).

(** [l.Remove(e)]: no effect if [e] is not an element of [l]. *)
Definition list_Remove (e : Element) (l : GoList) : GoList :=
  mkList (List.filter (not_elem e) (l_elems l)) (l_next l).

(** [l.MoveToFront(e)]: no effect if [e] is not an element of [l]. *)
Definition list_MoveToFront (e : Element) (l : GoList) : GoList :=
  match List.find (fun x => Nat.eqb (elem_id x) (elem_id e)) (l_elems l) with
  | Some x => mkList (x :: List.filter (not_elem e) (l_elems l)) (l_next l)
  | None => l
  end.

(** [l.Back()] *)
Definition list_Back (l : GoList) : option Element :=
  List.last (map Some (l_elems l)) None.

(** ** The cache (cache.go:36-61, lcache.go:141-180) *)

(** [type Options struct]; [OnEvicted] says whether a callback is set. *)
Record Options := mkOptions {
  Capacity : Z;
  Serializer : string;
  OnEvicted : bool
}.

(** [type Cache struct], with the trace of callback calls [evlog]. *)
Record Cache := mkCache {
  opt : Options;
  items : gmap string Item;
  lruList : GoList;
  lruMap : gmap string Element;
  evlog : list (string * Value)
}.

Definition with_items (m : gmap string Item) (c : Cache) : Cache :=
  mkCache (opt c) m (lruList c) (lruMap c) (evlog c).
Definition with_lru (l : GoList) (idx : gmap string Element) (c : Cache) : Cache :=
  mkCache (opt c) (items c) l idx (evlog c).
Definition with_opt (o : Options) (c : Cache) : Cache :=
  mkCache o (items c) (lruList c) (lruMap c) (evlog c).

(** [type OptionFn func (o *Options)], a function updating the options *)
Definition OptionFn := Options -> Options.

(** [func WithCapacity(capacity int) OptionFn] *)
Definition WithCapacity (capacity : Z) : OptionFn :=
  fun o => mkOptions capacity (Serializer o) (OnEvicted o).

(** [func WithOnEvictFn(fn) OptionFn]: [true] installs a callback. *)
Definition WithOnEvictFn (installed : bool) : OptionFn :=
  fun o => mkOptions (Capacity o) (Serializer o) installed.

(** [func (c *Cache) Configure(optFns ...OptionFn) *Cache] *)
Definition Configure (optFns : list OptionFn) (c : Cache) : Cache :=
  with_opt (fold_left (fun o f => f o) optFns (opt c)) c.

(** [func New(optFns ...OptionFn) *Cache] *)
Definition New (optFns : list OptionFn) : Cache :=
  Configure optFns (mkCache (mkOptions 1000 "json" false) ∅ list_New ∅ []).

(** [func (c *Cache) removeElement(key string) (exists bool)] *)
Definition removeElement (key : string) (c : Cache) : bool * Cache :=
  let '(ex, c1) :=
    match lruMap c !! key with
    | Some elem => (true, with_lru (list_Remove elem (lruList c)) (delete key (lruMap c)) c)
    | None => (false, c)
    end in
  match items c1 !! key with
  | Some it =>
      (true, mkCache (opt c1) (delete key (items c1)) (lruList c1) (lruMap c1)
                     (if OnEvicted (opt c1) then evlog c1 ++ [(key, Val it)] else evlog c1))
  | None => (ex, c1)
  end.

(** [func (c *Cache) evict()] *)
Definition evict (c : Cache) : Cache :=
  match list_Back (lruList c) with
  | Some elem => snd (removeElement (elem_value elem) c)
  | None => c
  end.

(** [c.items[key] = it; elem := c.lruList.PushFront(key);
    c.lruMap[key] = elem], the insertion of a new key in [Set]
    (cache.go:95-97), [MSet] (cache.go:179-181) and [LoadFile]
    (cache.go:343-345). *)
Definition addFront (key : string) (it : Item) (c : Cache) : Cache :=
  let c1 := with_items (<[key := it]> (items c)) c in
  let '(elem, l) := list_PushFront key (lruList c1) in
  with_lru l (<[key := elem]> (lruMap c1)) c1.

(** The body shared by [Set] (cache.go:82-97) and the loop of [MSet]
    (cache.go:166-181), once the expiry [exp] is computed. *)
Definition setItem (key : string) (value : Value) (exp : Z) (c : Cache) : Cache :=
  match lruMap c !! key with
  | Some elem =>
      with_items (<[key := mkItem value exp]> (items c))
        (with_lru (list_MoveToFront elem (lruList c)) (lruMap c) c)
  | None =>
      let c1 := if Z.geb (list_Len (lruList c)) (Capacity (opt c)) then evict c else c in
      addFront key (mkItem value exp) c1
  end.

(** [exp := time.Now().Add(ttl).UnixMilli()] when [ttl > 0], else 0. *)
Definition expOf (ttl now : Z) : Z :=
  if Z.ltb 0 ttl then UnixMilli (now + ttl) else 0.

(** [func (c *Cache) Set(key string, value any, ttl time.Duration)]
    ([Set] is a reserved word of Rocq). *)
Definition Set_ (key : string) (value : Value) (ttl : Z) (now : Z) (c : Cache) : Cache :=
  setItem key value (expOf ttl now) c.

(** [func (c *Cache) Get(key string) (any, bool)] *)
Definition Get (key : string) (now : Z) (c : Cache) : (Value * bool) * Cache :=
  match items c !! key with
  | None => ((VNil, false), c)
  | Some it =>
      if isExpired it now then ((VNil, false), snd (removeElement key c))
      else
        let c' := match lruMap c !! key with
                  | Some elem => with_lru (list_MoveToFront elem (lruList c)) (lruMap c) c
                  | None => c
                  end in
        ((Val it, true), c')
  end.

(** [func (c *Cache) Val(key string) any] *)
Definition Val_ (key : string) (now : Z) (c : Cache) : Value * Cache :=
  let '((v, _), c') := Get key now c in (v, c').

(** The loop of [MGet] (cache.go:138-150). *)
Fixpoint mget_loop (nowUm : Z) (keys : list string) (result : gmap string Value) (c : Cache)
  : gmap string Value * Cache :=
  match keys with
  | [] => (result, c)
  | key :: ks =>
      match items c !! key with
      | Some it =>
          if isExpired1 it nowUm then mget_loop nowUm ks (<[key := VNil]> result) c
          else
            let c' := match lruMap c !! key with
                      | Some elem => with_lru (list_MoveToFront elem (lruList c)) (lruMap c) c
                      | None => c
                      end in
            mget_loop nowUm ks (<[key := Val it]> result) c'
      | None => mget_loop nowUm ks (<[key := VNil]> result) c
      end
  end.

(** [func (c *Cache) MGet(keys ...string) map[string]any] *)
Definition MGet (keys : list string) (now : Z) (c : Cache) : gmap string Value * Cache :=
  mget_loop (UnixMilli now) keys ∅ c.

(** The loop of [MSet] over the pairs of [items] in iteration order. *)
Fixpoint mset_loop (kvs : list (string * Value)) (exp : Z) (c : Cache) : Cache :=
  match kvs with
  | [] => c
  | (key, value) :: rest => mset_loop rest exp (setItem key value exp c)
  end.

(** [func (c *Cache) MSet(items map[string]any, ttl time.Duration)] *)
Definition MSet (m : gmap string Value) (ttl : Z) (now : Z) (c : Cache) : Cache :=
  mset_loop (map_to_list m) (expOf ttl now) c.

(** [func (c *Cache) Has(key string) bool] *)
Definition Has (key : string) (c : Cache) : bool :=
  match items c !! key with Some _ => true | None => false end.

(** The entries of a Go map that are not expired at [nowUm]
    (the filter of [Keys] and of [SaveFile]). *)
Definition live_entries (nowUm : Z) (m : gmap string Item) : list (string * Item) :=
  List.filter (fun kv => negb (isExpired1 (snd kv) nowUm)) (map_to_list m).

(** [func (c *Cache) Keys() []string] *)
Definition Keys (now : Z) (c : Cache) : list string :=
  map fst (live_entries (UnixMilli now) (items c)).

(** [func (c *Cache) Len() int] *)
Definition Len (c : Cache) : Z := Z.of_nat (size (items c)).

(** [func (c *Cache) reset()] *)
Definition reset (c : Cache) : Cache :=
  mkCache (opt c) ∅ (list_Init (lruList c)) ∅ (evlog c).

(** [func (c *Cache) Clear()] *)
Definition Clear (c : Cache) : Cache := reset c.

(** [func (c *Cache) Delete(key string) bool] *)
Definition Delete (key : string) (c : Cache) : bool * Cache := removeElement key c.

(** ** Serializers (lcache.go:91-135) *)

(** Errors the persistence paths return. [ErrNew msg] is
    [errors.New(msg)]; [ErrOpen path] an [*os.PathError] of a failed
    open; [ErrSyntax] and [ErrUnmarshalType] the errors of
    [encoding/json] decoding; [ErrUnsupportedValue] and
    [ErrUnsupportedType] the errors of [encoding/json] encoding (a NaN
    or infinite float64; a func, chan or complex value);
    [ErrUnsupported] a decoded value outside the modelled domain. *)
Inductive Err :=
| ErrNew (msg : string)
| ErrOpen (path : string)
| ErrSyntax
| ErrUnmarshalType
| ErrUnsupportedValue
| ErrUnsupportedType
| ErrUnsupported.

Local Set Warnings "-register-all".

(** JSON documents. [JNum n] is a number written in integer form (the
    form [encoding/json] writes for integers and for integral float64
    values below 1e21; an integral float64 written in exponent form is
    read back as the same float64, which [JNum n] also gives). [JStr s]
    and the member names hold the strings the document's text decodes
    to. *)
Inductive json :=
| JNull
| JBool (b : bool)
| JNum (n : Z)
| JStr (s : string)
| JObj (fields : list (string * json)).

(** The content of a file: the JSON document that [json.Encoder]
    printed into it ([DocJson]; printing and parsing the text of one
    document are inverse in [encoding/json] and are not modelled), or
    bytes that are not one JSON document ([DocRaw]; an empty file is
    [DocRaw ""]). *)
Inductive Doc :=
| DocJson (j : json)
| DocRaw (bytes : string).

(** [type Serializer interface] (named [SerializerIface] here, as
    [Serializer] is the field of [Options]), by the two methods the cache uses:
    [EncodeTo] gives the content of the (just truncated) file after it
    has written and its error, [DecodeFrom] the decoded
    [map[string]Item] or the error. *)
Record SerializerIface := mkSerializer {
  EncodeTo : gmap string Item -> Doc * option Err;
  DecodeFrom : Doc -> Err + gmap string Item
}.

(** *** Strings as [encoding/json] writes them (unicode/utf8) *)

Definition byte_in (lo hi : N) (a : Ascii.ascii) : bool :=
  (lo <=? Ascii.N_of_ascii a)%N && (Ascii.N_of_ascii a <=? hi)%N.

(** The first-byte table of [utf8.DecodeRuneInString]: for the first
    byte of a multi-byte encoding, the range of the second byte and the
    number of bytes after the first one. *)
Definition utf8_lead (b : N) : option (N * N * nat) :=
  if (b <? 194)%N then None
  else if (b <=? 223)%N then Some (128%N, 191%N, 1%nat)
  else if (b =? 224)%N then Some (160%N, 191%N, 2%nat)
  else if (b =? 237)%N then Some (128%N, 159%N, 2%nat)
  else if (b <=? 239)%N then Some (128%N, 191%N, 2%nat)
  else if (b =? 240)%N then Some (144%N, 191%N, 3%nat)
  else if (b <=? 243)%N then Some (128%N, 191%N, 3%nat)
  else if (b =? 244)%N then Some (128%N, 143%N, 3%nat)
  else None.

(** [n] continuation bytes (0x80-0xBF) at the start of [s], and the rest. *)
Fixpoint utf8_conts (n : nat) (s : string) : option (string * string) :=
  match n with
  | O => Some (String.EmptyString, s)
  | S n' =>
      match s with
      | String.String b r =>
          if byte_in 128 191 b then
            match utf8_conts n' r with
            | Some (p, r') => Some (String.String b p, r')
            | None => None
            end
          else None
      | String.EmptyString => None
      end
  end.

(** After a first byte [a] of 0x80 or more: the other bytes of the valid
    encoding it starts and the bytes after it, or [None] when
    [utf8.DecodeRuneInString] returns [(RuneError, 1)] there. *)
Definition utf8_tail (a : Ascii.ascii) (rest : string) : option (string * string) :=
  match utf8_lead (Ascii.N_of_ascii a) with
  | None => None
  | Some (lo, hi, n) =>
      match rest with
      | String.String b r =>
          if byte_in lo hi b then
            match utf8_conts (pred n) r with
            | Some (p, r') => Some (String.String b p, r')
            | None => None
            end
          else None
      | String.EmptyString => None
      end
  end.

(** The UTF-8 encoding of U+FFFD. *)
Definition replacement_char : string :=
  String.String (Ascii.ascii_of_N 239)
    (String.String (Ascii.ascii_of_N 191) (String.String (Ascii.ascii_of_N 189) String.EmptyString)).

(** The loop of [encodeState.string] on the bytes of [s]: valid
    encodings are kept, each byte where decoding fails becomes U+FFFD
    (escapes are undone by decoding and are not modelled). Each step
    consumes at least one byte, so [String.length s] steps suffice. *)
Fixpoint utf8_coerce_fuel (fuel : nat) (s : string) : string :=
  match fuel with
  | O => s
  | S fuel' =>
      match s with
      | String.EmptyString => String.EmptyString
      | String.String a rest =>
          if (Ascii.N_of_ascii a <? 128)%N then String.String a (utf8_coerce_fuel fuel' rest)
          else match utf8_tail a rest with
               | Some (tl, rest') => String.append (String.String a tl) (utf8_coerce_fuel fuel' rest')
               | None => String.append replacement_char (utf8_coerce_fuel fuel' rest)
               end
      end
  end.

(** The bytes [encoding/json] writes for the string [s]. *)
Definition utf8_coerce (s : string) : string := utf8_coerce_fuel (String.length s) s.



(** *** Numbers *)

(** The float64 nearest to the integer [n], ties to even (what
    [strconv.ParseFloat] gives for a number written as [n]), ignoring
    the exponent range: [n] keeps its 53 leading bits, rounded. *)
Definition f64_nearest (n : Z) : Z :=
  let a := Z.abs n in
  let e := Z.log2 a in
  if (e <=? 52)%Z then n
  else
    let sh := (e - 52)%Z in
    let q := Z.shiftr a sh in
    let rm := (a - Z.shiftl q sh)%Z in
    let half := Z.shiftl 1 (sh - 1) in
    let q' := if (half <? rm)%Z || ((rm =? half)%Z && Z.odd q) then (q + 1)%Z else q in
    (Z.sgn n * Z.shiftl q' sh)%Z.

(** [strconv.ParseFloat(s, 64)] of a number written as [n]: [None] is
    the range error of a number that rounds to an infinity. *)
Definition ParseFloat (n : Z) : option Z :=
  if (2 ^ 1024 <=? Z.abs (f64_nearest n))%Z then None else Some (f64_nearest n).

(** The range of [int64], where [strconv.ParseInt(s, 10, 64)] succeeds. *)
Definition int64_range (n : Z) : bool := (- 2 ^ 63 <=? n)%Z && (n <? 2 ^ 63)%Z.

(** *** Encoding *)

(** [encoding/json] marshalling of an [any] holding a [Value]. *)
Definition json_of_value (v : Value) : Err + json :=
  match v with
  | VNil => inr JNull
  | VBool b => inr (JBool b)
  | VInt n => inr (JNum n)
  | VFloat64 n => inr (JNum n)
  | VFloat64NaN | VFloat64Inf _ => inl ErrUnsupportedValue
  | VStr s => inr (JStr (utf8_coerce s))
  | VOpaque _ => inl ErrUnsupportedType
  end.

(** [*Item] as JSON, by its tags [json:"v"] and [json:"e"]. *)
Definition json_of_item (it : Item) : Err + json :=
  match json_of_value (Val it) with
  | inr j => inr (JObj [("v", j); ("e", JNum (Exp it))])
  | inl err => inl err
  end.

(** The entries of a map in increasing byte order of their keys, as
    [mapEncoder] sorts them (the keys of a map are distinct). *)
Fixpoint insert_by_key {A} (kv : string * A) (l : list (string * A)) : list (string * A) :=
  match l with
  | [] => [kv]
  | kv' :: l' => if String.leb (fst kv) (fst kv') then kv :: l else kv' :: insert_by_key kv l'
  end.

Definition sort_by_key {A} (l : list (string * A)) : list (string * A) :=
  fold_right insert_by_key [] l.

(** The members of the object, in order; the first value that cannot be
    encoded stops the encoding with its error. *)
Fixpoint encode_members (kvs : list (string * Item)) : Err + list (string * json) :=
  match kvs with
  | [] => inr []
  | (k, it) :: rest =>
      match json_of_item it with
      | inl err => inl err
      | inr j =>
          match encode_members rest with
          | inr js => inr ((utf8_coerce k, j) :: js)
          | inl err => inl err
          end
      end
  end.

(** [JSONSerializer.EncodeTo]: [json.NewEncoder(w).Encode(src)] encodes
    the whole map first and writes nothing when that fails. *)
Definition json_EncodeTo (data : gmap string Item) : Doc * option Err :=
  match encode_members (sort_by_key (map_to_list data)) with
  | inr js => (DocJson (JObj js), None)
  | inl err => (DocRaw "", Some err)
  end.

(** *** Decoding *)

(** [encoding/json] unmarshalling into an [any]: numbers become
    float64 values ([ParseFloat]; a range error is an
    [*UnmarshalTypeError]). An object would become a [map[string]any],
    which is outside [Value]. *)
Definition value_of_json (j : json) : Err + Value :=
  match j with
  | JNull => inr VNil
  | JBool b => inr (VBool b)
  | JNum n => match ParseFloat n with Some r => inr (VFloat64 r) | None => inl ErrUnmarshalType end
  | JStr s => inr (VStr s)
  | JObj _ => inl ErrUnsupported
  end.

Definition ascii_lower (a : Ascii.ascii) : Ascii.ascii :=
  if byte_in 65 90 a then Ascii.ascii_of_N (Ascii.N_of_ascii a + 32) else a.

Fixpoint string_lower (s : string) : string :=
  match s with
  | String.EmptyString => String.EmptyString
  | String.String a r => String.String (ascii_lower a) (string_lower r)
  end.

(** Whether the member name [k] selects the field tagged [tag] (a
    lower-case ASCII tag): an exact match, or else a case-insensitive
    one. For the tags ["v"] and ["e"] no non-ASCII rune folds to a tag
    letter, so ASCII case folding is [encoding/json]'s folding here. *)
Definition field_match (tag k : string) : bool := String.eqb (string_lower k) tag.

(** Unmarshalling the members of an object into an [Item], in order: a
    later member for a field overwrites an earlier one; [null] sets the
    [any] field [V] to nil and leaves the [int64] field [Exp] as it is;
    other members are ignored. *)
Fixpoint item_fields (fs : list (string * json)) (it : Item) : Err + Item :=
  match fs with
  | [] => inr it
  | (k, j) :: rest =>
      if field_match "v" k then
        match value_of_json j with
        | inr v => item_fields rest (mkItem v (Exp it))
        | inl err => inl err
        end
      else if field_match "e" k then
        match j with
        | JNum n => if int64_range n then item_fields rest (mkItem (Val it) n)
                    else inl ErrUnmarshalType
        | JNull => item_fields rest it
        | _ => inl ErrUnmarshalType
        end
      else item_fields rest it
  end.

(** Unmarshalling into a zero [Item]; [null] leaves it zero. *)
Definition item_of_json (j : json) : Err + Item :=
  match j with
  | JNull => inr (mkItem VNil 0)
  | JObj fs => item_fields fs (mkItem VNil 0)
  | _ => inl ErrUnmarshalType
  end.

(** Unmarshalling the members of an object into a [map[string]Item],
    in document order (a later duplicate key wins). *)
Fixpoint items_of_fields (fs : list (string * json)) (acc : gmap string Item)
  : Err + gmap string Item :=
  match fs with
  | [] => inr acc
  | (k, j) :: rest =>
      match item_of_json j with
      | inr it => items_of_fields rest (<[k := it]> acc)
      | inl err => inl err
      end
  end.

(** [JSONSerializer.DecodeFrom] into a [map[string]Item]; [null]
    leaves the map nil, which ranges as an empty map. *)
Definition json_DecodeFrom (d : Doc) : Err + gmap string Item :=
  match d with
  | DocRaw _ => inl ErrSyntax
  | DocJson JNull => inr ∅
  | DocJson (JObj fs) => items_of_fields fs ∅
  | DocJson _ => inl ErrUnmarshalType
  end.




(** [type JSONSerializer struct{}] *)
Definition JSONSerializer : SerializerIface := mkSerializer json_EncodeTo json_DecodeFrom.

(** [var serializers = map[string]Serializer{"json": JSONSerializer{}}] *)
Definition serializers0 : gmap string SerializerIface := {[ "json" := JSONSerializer ]}.

(** [func SetSerializer(name string, serializer Serializer)]
    (lcache.go:105-112): [None] is a nil serializer, which deletes. *)
Definition SetSerializer (name : string) (s : option SerializerIface)
    (reg : gmap string SerializerIface) : gmap string SerializerIface :=
  match s with
  | Some s' => <[name := s']> reg
  | None => delete name reg
  end.

(** [func WithSerializer(serializer string) OptionFn]: [None] is the
    panic on an unregistered name. *)
Definition WithSerializer (reg : gmap string SerializerIface) (name : string) : option OptionFn :=
  match reg !! name with
  | Some _ => Some (fun o => mkOptions (Capacity o) name (OnEvicted o))
  | None => None
  end.

(** [func (c *Cache) serializer() (Serializer, error)] *)
Definition serializer (reg : gmap string SerializerIface) (c : Cache) : Err + SerializerIface :=
  match reg !! Serializer (opt c) with
  | Some s => inr s
  | None => inl (ErrNew ("not registered serializer: " ++ Serializer (opt c)))
  end.

(** ** Files *)

(** The file system: file contents by path, the paths where a file
    cannot be created or written, and the paths where a file cannot be
    opened for reading (say, for lack of read permission). *)
Record FS := mkFS { files : gmap string Doc; denied : gset string; unreadable : gset string }.

(** [os.Open(filename)]: fails when there is no file or it cannot be
    opened for reading. *)
Definition os_Open (fs : FS) (filename : string) : Err + Doc :=
  if decide (filename ∈ unreadable fs) then inl (ErrOpen filename)
  else
    match files fs !! filename with
    | Some d => inr d
    | None => inl (ErrOpen filename)
    end.

(** [fsutil.OpenTruncFile(filename, 0644)]: creates the file or
    truncates it to empty. *)
Definition OpenTruncFile (fs : FS) (filename : string) : Err + FS :=
  if decide (filename ∈ denied fs) then inl (ErrOpen filename)
  else inr (mkFS (<[filename := DocRaw ""]> (files fs)) (denied fs) (unreadable fs)).

Definition write_file (fs : FS) (filename : string) (d : Doc) : FS :=
  mkFS (<[filename := d]> (files fs)) (denied fs) (unreadable fs).

(** ** Snapshots (cache.go:282-350) *)

(** [func (c *Cache) SaveFile(filename string) error]; it holds the
    read lock and leaves the cache as it is. *)
Definition SaveFile (filename : string) (now : Z) (reg : gmap string SerializerIface)
    (c : Cache) (fs : FS) : option Err * FS :=
  let data : gmap string Item := list_to_map (live_entries (UnixMilli now) (items c)) in
  if decide (size data = 0%nat) then (None, fs)
  else
    match OpenTruncFile fs filename with
    | inl err => (Some err, fs)
    | inr fs1 =>
        match serializer reg c with
        | inl err1 => (Some err1, fs1)
        | inr s =>
            let '(d, err) := EncodeTo s data in (err, write_file fs1 filename d)
        end
    end.

(** The loop of [LoadFile] (cache.go:340-347), with a fresh [v] in each
    iteration (per-iteration loop variables, as the package's own
    save/load test needs). *)
Fixpoint load_loop (nowUm : Z) (kvs : list (string * Item)) (c : Cache) : Cache :=
  match kvs with
  | [] => c
  | (k, v) :: rest =>
      if negb (isExpired1 v nowUm) then load_loop nowUm rest (addFront k v c)
      else load_loop nowUm rest c
  end.

(** [func (c *Cache) LoadFile(filename string) error] *)
Definition LoadFile (filename : string) (now : Z) (reg : gmap string SerializerIface)
    (c : Cache) (fs : FS) : option Err * Cache :=
  match os_Open fs filename with
  | inl err => (Some err, c)
  | inr d =>
      match serializer reg c with
      | inl err1 => (Some err1, c)
      | inr s =>
          match DecodeFrom s d with
          | inl err => (Some err, c)
          | inr data => (None, load_loop (UnixMilli now) (map_to_list data) (reset c))
          end
      end
  end.

(** ** Public operations *)

(** One call of a public operation of the package (results dropped). *)
Inductive Op :=
| OpSet (key : string) (value : Value) (ttl : Z)
| OpGet (key : string)
| OpVal (key : string)
| OpMGet (keys : list string)
| OpMSet (m : gmap string Value) (ttl : Z)
| OpHas (key : string)
| OpKeys
| OpLen
| OpDelete (key : string)
| OpClear
| OpSaveFile (filename : string)
| OpLoadFile (filename : string)
| OpConfigure (optFns : list OptionFn)
| OpSetSerializer (name : string) (s : option SerializerIface).

(** The cache, the serializer registry and the file system. *)
Record World := mkWorld {
  w_cache : Cache;
  w_reg : gmap string SerializerIface;
  w_fs : FS
}.

(** The effect of one operation run at clock [now]. *)
Definition exec (now : Z) (op : Op) (w : World) : World :=
  let c := w_cache w in
  let reg := w_reg w in
  let fs := w_fs w in
  match op with
  | OpSet k v ttl => mkWorld (Set_ k v ttl now c) reg fs
  | OpGet k => mkWorld (snd (Get k now c)) reg fs
  | OpVal k => mkWorld (snd (Val_ k now c)) reg fs
  | OpMGet ks => mkWorld (snd (MGet ks now c)) reg fs
  | OpMSet m ttl => mkWorld (MSet m ttl now c) reg fs
  | OpHas _ | OpKeys | OpLen => w
  | OpDelete k => mkWorld (snd (Delete k c)) reg fs
  | OpClear => mkWorld (Clear c) reg fs
  | OpSaveFile f => mkWorld c reg (snd (SaveFile f now reg c fs))
  | OpLoadFile f => mkWorld (snd (LoadFile f now reg c fs)) reg fs
  | OpConfigure fns => mkWorld (Configure fns c) reg fs
  | OpSetSerializer name s => mkWorld c (SetSerializer name s reg) fs
  end.

(** The worlds reachable from a new cache by public operations. *)
Inductive Reach : World -> Prop :=
| Reach_New (optFns : list OptionFn) (reg : gmap string SerializerIface) (fs : FS) :
    Reach (mkWorld (New optFns) reg fs)
| Reach_step (now : Z) (op : Op) (w : World) :
    Reach w -> Reach (exec now op w).

(** One call [c.Set(key, value, ttl)] made at clock [now]. *)
Record SetCall := mkSetCall { sc_key : string; sc_value : Value; sc_ttl : Z; sc_now : Z }.

(** A sequence of [Set] calls, in order. *)
Definition run_sets (calls : list SetCall) (c : Cache) : Cache :=
  fold_left (fun c x => Set_ (sc_key x) (sc_value x) (sc_ttl x) (sc_now x) c) calls c.

(** The item a [Set] call stores. *)
Definition call_item (x : SetCall) : Item := mkItem (sc_value x) (expOf (sc_ttl x) (sc_now x)).


(** An entry that has expired: one set with a 1 ms TTL at time 0 and
    read 10 ms later. *)
Definition cache_with_expired : Cache := Set_ "a" (VInt 1) 1000000 0 (New []).
Definition ten_ms : Z := 10000000.

(** A registry where ["custom"] was registered, a cache configured with
    it (one live entry), and the registry after ["custom"] is removed. *)
Definition reg_custom : gmap string SerializerIface :=
  SetSerializer "custom" (Some JSONSerializer) serializers0.
Definition cache_custom : Cache :=
  Set_ "a" (VInt 1) 0 0 (New (option_list (WithSerializer reg_custom "custom"))).
Definition reg_removed : gmap string SerializerIface := SetSerializer "custom" None reg_custom.

(** The keys held by the LRU list, front first. *)
Definition keys_of (l : GoList) : list string := map elem_value (l_elems l).

(** The bijection between [items], [lruMap] and [lruList]. *)
Definition KeySetsAgree (c : Cache) : Prop :=
  dom (items c) = dom (lruMap c) /\
  (forall k, k ∈ dom (lruMap c) <-> In k (keys_of (lruList c))) /\
  NoDup (keys_of (lruList c)).

(** The representation invariant: distinct elements and keys in the
    list, fresh ids above all allocated ones, [lruMap] pointing at the
    element holding each key, and [items] keyed like [lruMap]. *)
Record Inv (c : Cache) : Prop := {
  inv_ids : NoDup (map elem_id (l_elems (lruList c)));
  inv_keys : NoDup (keys_of (lruList c));
  inv_fresh : forall e, In e (l_elems (lruList c)) -> (elem_id e < l_next (lruList c))%nat;
  inv_index : forall k e, lruMap c !! k = Some e <->
                          In e (l_elems (lruList c)) /\ elem_value e = k;
  inv_dom : forall k, is_Some (items c !! k) <-> is_Some (lruMap c !! k)
}.

(** ** Package-level typed access (lcache.go:47-61) *)

(** The type argument [T] of [Get[T]], among the dynamic types a
    [Value] can have, and [any]. *)
Inductive GoType := TBool | TInt | TFloat64 | TString | TAny.

(** [var zero T] *)
Definition zero (t : GoType) : Value :=
  match t with
  | TBool => VBool false
  | TInt => VInt 0
  | TFloat64 => VFloat64 0
  | TString => VStr ""
  | TAny => VNil
  end.

(** The type assertion [val.(T)]: it fails on a nil interface value,
    also for [T = any]. *)
Definition type_assert (v : Value) (t : GoType) : option Value :=
  match v, t with
  | VNil, _ => None
  | _, TAny => Some v
  | VBool _, TBool | VInt _, TInt | VStr _, TString => Some v
  | VFloat64 _, TFloat64 | VFloat64NaN, TFloat64 | VFloat64Inf _, TFloat64 => Some v
  | _, _ => None
  end.

(** [func Get[T any](key string) (T, bool)] on the cache [std]
    ([GetT], as [Get] is the method). *)
Definition GetT (t : GoType) (key : string) (now : Z) (std : Cache) : (Value * bool) * Cache :=
  let '((val, ok), std') := Get key now std in
  if negb ok then ((zero t, false), std')
  else match type_assert val t with
       | Some res => ((res, true), std')
       | None => ((zero t, false), std')
       end.

(** ** Facts about lists of elements *)

Lemma NoDup_map_filter {A B} (f : A -> B) (p : A -> bool) (l : list A) :
  NoDup (map f l) -> NoDup (map f (List.filter p l)).
Proof.
  induction l as [|x l IH]; simpl; intros H; [constructor|].
  apply NoDup_cons in H as [Hx Hl].
  destruct (p x); simpl; [|auto].
  apply NoDup_cons; split; [|auto].
  intros Hin. apply Hx. apply list_elem_of_In in Hin. apply list_elem_of_In.
  apply in_map_iff in Hin as (y & <- & Hy). apply filter_In in Hy as [Hy _].
  apply in_map; auto.
Qed.

Lemma NoDup_map_inj_in {A B} (f : A -> B) (l : list A) x y :
  NoDup (map f l) -> In x l -> In y l -> f x = f y -> x = y.
Proof.
  induction l as [|z l IH]; simpl; [tauto|].
  intros H Hx Hy Hf. apply NoDup_cons in H as [Hz Hl].
  destruct Hx as [<-|Hx], Hy as [<-|Hy]; auto.
  - exfalso. apply Hz, list_elem_of_In. rewrite Hf. apply in_map; auto.
  - exfalso. apply Hz, list_elem_of_In. rewrite <- Hf. apply in_map; auto.
Qed.

Lemma NoDup_map_perm {A B} (f : A -> B) (l l' : list A) :
  Permutation l l' -> NoDup (map f l) -> NoDup (map f l').
Proof.
  intros Hp H. apply NoDup_ListNoDup. apply NoDup_ListNoDup in H.
  eapply Permutation_NoDup; [apply Permutation_map, Hp | exact H].
Qed.

(** An element is the only one with its id. *)
Lemma filter_not_elem_other (e : Element) (l : list Element) :
  NoDup (map elem_id l) -> In e l ->
  forall x, In x l -> (In x (List.filter (not_elem e) l) <-> x <> e).
Proof.
  intros Hnd He x Hx. rewrite filter_In. unfold not_elem. split.
  - intros [_ Hb] ->. rewrite Nat.eqb_refl in Hb. discriminate.
  - intros Hne. split; [exact Hx|].
    destruct (Nat.eqb_spec (elem_id x) (elem_id e)) as [Heq|]; [|reflexivity].
    exfalso. apply Hne. eapply NoDup_map_inj_in; eauto.
Qed.

Lemma filter_not_elem_absent (e : Element) (l : list Element) :
  ~ In (elem_id e) (map elem_id l) -> List.filter (not_elem e) l = l.
Proof.
  induction l as [|x l IH]; simpl; intros H; [reflexivity|].
  unfold not_elem at 1. destruct (Nat.eqb_spec (elem_id x) (elem_id e)) as [Heq|Hne].
  - exfalso. apply H. left. exact Heq.
  - simpl. f_equal. apply IH. tauto.
Qed.

Lemma perm_move_front (e : Element) (l : list Element) :
  NoDup (map elem_id l) -> In e l ->
  Permutation l (e :: List.filter (not_elem e) l).
Proof.
  induction l as [|x l IH]; simpl; [tauto|].
  intros Hnd He. apply NoDup_cons in Hnd as [Hx Hl].
  destruct He as [<-|He].
  - unfold not_elem at 1. rewrite Nat.eqb_refl. simpl.
    rewrite filter_not_elem_absent; [reflexivity|].
    intros Hin. apply Hx, list_elem_of_In. exact Hin.
  - unfold not_elem at 1. destruct (Nat.eqb_spec (elem_id x) (elem_id e)) as [Heq|Hne].
    + exfalso. apply Hx, list_elem_of_In. rewrite Heq. apply in_map. exact He.
    + simpl. rewrite (IH Hl He) at 1. apply perm_swap.
Qed.

(** Under distinct ids, [MoveToFront] of a member permutes the list. *)
Lemma list_MoveToFront_perm (e : Element) (l : GoList) :
  NoDup (map elem_id (l_elems l)) -> In e (l_elems l) ->
  l_elems (list_MoveToFront e l) = e :: List.filter (not_elem e) (l_elems l) /\
  l_next (list_MoveToFront e l) = l_next l.
Proof.
  intros Hnd He. unfold list_MoveToFront.
  destruct (List.find _ _) as [x|] eqn:Hf.
  - apply find_some in Hf as [Hx Heq]. apply Nat.eqb_eq in Heq.
    assert (x = e) as -> by (eapply NoDup_map_inj_in; eauto).
    split; reflexivity.
  - exfalso. eapply find_none in Hf; [|exact He]. rewrite Nat.eqb_refl in Hf. discriminate.
Qed.

(** ** The representation invariant is preserved *)

Lemma Inv_with_opt (o : Options) (c : Cache) : Inv c -> Inv (with_opt o c).
Proof. intros [? ? ? ? ?]. constructor; assumption. Qed.

Lemma Inv_New (optFns : list OptionFn) : Inv (New optFns).
Proof.
  unfold New, Configure. apply Inv_with_opt.
  constructor; simpl.
  - constructor.
  - constructor.
  - tauto.
  - intros k e. rewrite lookup_empty. split; [discriminate | tauto].
  - intros k. rewrite !lookup_empty. split; intros [? H]; discriminate.
Qed.

Lemma Inv_reset (c : Cache) : Inv (reset c).
Proof.
  constructor; simpl.
  - constructor.
  - constructor.
  - tauto.
  - intros k e. rewrite lookup_empty. split; [discriminate | tauto].
  - intros k. rewrite !lookup_empty. split; intros [? H]; discriminate.
Qed.

Lemma Inv_items_None (c : Cache) (k : string) :
  Inv c -> lruMap c !! k = None -> items c !! k = None.
Proof.
  intros HI Hk. destruct (items c !! k) eqn:Hi; [|reflexivity].
  exfalso. assert (is_Some (lruMap c !! k)) as [e He].
  { apply (inv_dom c HI). eauto. }
  congruence.
Qed.

Lemma Inv_items_Some (c : Cache) (k : string) e :
  Inv c -> lruMap c !! k = Some e -> exists it, items c !! k = Some it.
Proof.
  intros HI Hk. destruct (proj2 (inv_dom c HI k)) as [it Hit]; eauto.
Qed.

Lemma removeElement_absent (c : Cache) (k : string) :
  Inv c -> lruMap c !! k = None -> removeElement k c = (false, c).
Proof.
  intros HI Hk. unfold removeElement. rewrite Hk.
  rewrite (Inv_items_None c k HI Hk). reflexivity.
Qed.

Lemma removeElement_present (c : Cache) (k : string) e it :
  lruMap c !! k = Some e -> items c !! k = Some it ->
  removeElement k c =
    (true, mkCache (opt c) (delete k (items c)) (list_Remove e (lruList c))
                   (delete k (lruMap c))
                   (if OnEvicted (opt c) then evlog c ++ [(k, Val it)] else evlog c)).
Proof. intros Hk Hi. unfold removeElement. rewrite Hk. simpl. rewrite Hi. reflexivity. Qed.

Lemma Inv_removeElement (c : Cache) (k : string) :
  Inv c -> Inv (snd (removeElement k c)).
Proof.
  intros HI. destruct (lruMap c !! k) as [e|] eqn:Hk;
    [|rewrite removeElement_absent; auto].
  destruct (Inv_items_Some c k e HI Hk) as [it Hit].
  rewrite (removeElement_present c k e it Hk Hit). simpl.
  destruct HI as [Hids Hkeys Hfresh Hidx Hdom].
  assert (He : In e (l_elems (lruList c)) /\ elem_value e = k) by (apply Hidx; exact Hk).
  constructor; simpl.
  - apply NoDup_map_filter. exact Hids.
  - apply NoDup_map_filter. exact Hkeys.
  - intros x Hx. apply filter_In in Hx as [Hx _]. auto.
  - intros k' x. destruct (decide (k = k')) as [<-|Hne].
    + rewrite lookup_delete_eq. split; [discriminate|].
      intros [Hx Hv]. apply filter_In in Hx as [Hx Hb].
      assert (x = e) as -> by (assert (lruMap c !! k = Some x) by (apply Hidx; auto); congruence).
      unfold not_elem in Hb. rewrite Nat.eqb_refl in Hb. discriminate.
    + rewrite lookup_delete_ne by exact Hne. rewrite Hidx. split.
      * intros [Hx Hv]. split; [|exact Hv].
        apply (filter_not_elem_other e _ Hids (proj1 He) x Hx). intros ->.
        destruct He as [_ He]. congruence.
      * intros [Hx Hv]. apply filter_In in Hx as [Hx _]. auto.
  - intros k'. destruct (decide (k = k')) as [<-|Hne].
    + rewrite !lookup_delete_eq. split; intros [? H]; discriminate.
    + rewrite !lookup_delete_ne by exact Hne. apply Hdom.
Qed.

Lemma Inv_evict (c : Cache) : Inv c -> Inv (evict c).
Proof.
  intros HI. unfold evict. destruct (list_Back _); [apply Inv_removeElement|]; exact HI.
Qed.

(** Moving the element of a key to the front keeps the invariant. *)
Lemma Inv_move (c : Cache) (k : string) e :
  Inv c -> lruMap c !! k = Some e ->
  Inv (with_lru (list_MoveToFront e (lruList c)) (lruMap c) c).
Proof.
  intros HI Hk. destruct HI as [Hids Hkeys Hfresh Hidx Hdom].
  assert (He : In e (l_elems (lruList c))) by (apply Hidx in Hk; tauto).
  destruct (list_MoveToFront_perm e (lruList c) Hids He) as [Hl Hn].
  pose proof (perm_move_front e _ Hids He) as Hp.
  constructor; unfold keys_of; simpl; rewrite ?Hl, ?Hn.
  - eapply NoDup_map_perm; eauto.
  - eapply NoDup_map_perm; eauto.
  - intros x Hx. apply Hfresh. eapply Permutation_in; [symmetry; exact Hp | exact Hx].
  - intros k' x. rewrite Hidx. split; intros [Hx Hv]; split; auto.
    + eapply Permutation_in; eauto.
    + eapply Permutation_in; [symmetry; exact Hp | exact Hx].
  - exact Hdom.
Qed.

Lemma Inv_with_items_insert (c : Cache) (k : string) (it : Item) :
  Inv c -> is_Some (lruMap c !! k) -> Inv (with_items (<[k := it]> (items c)) c).
Proof.
  intros [Hids Hkeys Hfresh Hidx Hdom] Hk. constructor; simpl; auto.
  intros k'. destruct (decide (k = k')) as [<-|Hne].
  - rewrite lookup_insert_eq. split; [intros _; exact Hk | eauto].
  - rewrite lookup_insert_ne by exact Hne. apply Hdom.
Qed.

(** Adding a key absent from the index keeps the invariant. *)
Lemma Inv_addFront (c : Cache) (k : string) (it : Item) :
  Inv c -> lruMap c !! k = None -> Inv (addFront k it c).
Proof.
  intros [Hids Hkeys Hfresh Hidx Hdom] Hk. unfold addFront, list_PushFront. simpl.
  assert (Hnk : ~ In k (keys_of (lruList c))).
  { unfold keys_of. intros Hin. apply in_map_iff in Hin as (x & Hv & Hx).
    assert (lruMap c !! k = Some x) by (apply Hidx; auto). congruence. }
  constructor; unfold keys_of; simpl.
  - apply NoDup_cons. split; [|exact Hids].
    intros Hin. apply list_elem_of_In in Hin. apply in_map_iff in Hin as (x & Hv & Hx).
    apply Hfresh in Hx. lia.
  - apply NoDup_cons. split; [|exact Hkeys].
    intros Hin. apply list_elem_of_In in Hin. exact (Hnk Hin).
  - intros x [<-|Hx]; simpl; [lia|]. apply Hfresh in Hx. lia.
  - intros k' x. destruct (decide (k = k')) as [<-|Hne].
    + rewrite lookup_insert_eq. split.
      * intros [= <-]. simpl. auto.
      * intros [[<-|Hx] Hv]; [reflexivity|].
        exfalso. apply Hnk. unfold keys_of. rewrite <- Hv. apply in_map. exact Hx.
    + rewrite lookup_insert_ne by exact Hne. rewrite Hidx. split.
      * intros [Hx Hv]. auto.
      * intros [[<-|Hx] Hv]; [simpl in Hv; congruence | auto].
  - intros k'. destruct (decide (k = k')) as [<-|Hne].
    + rewrite !lookup_insert_eq. split; eauto.
    + rewrite !lookup_insert_ne by exact Hne. apply Hdom.
Qed.

Lemma evict_lruMap_None (c : Cache) (k : string) :
  Inv c -> lruMap c !! k = None -> lruMap (evict c) !! k = None.
Proof.
  intros HI Hk. unfold evict. destruct (list_Back _) as [e|]; [|exact Hk].
  unfold removeElement. destruct (lruMap c !! elem_value e) eqn:He; simpl;
    destruct (items _ !! _); simpl; rewrite ?lookup_delete_None; auto.
Qed.

Lemma Inv_setItem (c : Cache) (k : string) (v : Value) (exp : Z) :
  Inv c -> Inv (setItem k v exp c).
Proof.
  intros HI. unfold setItem. destruct (lruMap c !! k) as [e|] eqn:Hk.
  - refine (Inv_with_items_insert
              (with_lru (list_MoveToFront e (lruList c)) (lruMap c) c) k _
              (Inv_move c k e HI Hk) _).
    simpl. eauto.
  - apply Inv_addFront.
    + destruct (Z.geb _ _); [apply Inv_evict|]; exact HI.
    + destruct (Z.geb _ _); [apply evict_lruMap_None|]; assumption.
Qed.

Lemma Inv_Get (c : Cache) (k : string) (now : Z) : Inv c -> Inv (snd (Get k now c)).
Proof.
  intros HI. unfold Get. destruct (items c !! k) as [it|]; [|exact HI].
  destruct (isExpired it now); [apply Inv_removeElement; exact HI|].
  destruct (lruMap c !! k) as [e|] eqn:Hk; [apply (Inv_move c k e HI Hk) | exact HI].
Qed.

Lemma Inv_mget_loop (nowUm : Z) (ks : list string) (res : gmap string Value) (c : Cache) :
  Inv c -> Inv (snd (mget_loop nowUm ks res c)).
Proof.
  revert res c. induction ks as [|k ks IH]; intros res c HI; simpl; [exact HI|].
  destruct (items c !! k) as [it|]; [|apply IH; exact HI].
  destruct (isExpired1 it nowUm); [apply IH; exact HI|].
  apply IH. destruct (lruMap c !! k) as [e|] eqn:Hk; [apply (Inv_move c k e HI Hk) | exact HI].
Qed.

(** [MSet] keeps the invariant for every iteration order of its map. *)
Lemma Inv_mset_loop (kvs : list (string * Value)) (exp : Z) (c : Cache) :
  Inv c -> Inv (mset_loop kvs exp c).
Proof.
  revert c. induction kvs as [|[k v] kvs IH]; intros c HI; simpl; [exact HI|].
  apply IH, Inv_setItem, HI.
Qed.

Lemma addFront_lruMap_ne (c : Cache) (k k' : string) (it : Item) :
  k <> k' -> lruMap (addFront k it c) !! k' = lruMap c !! k'.
Proof. intros Hne. unfold addFront. simpl. apply lookup_insert_ne. exact Hne. Qed.

(** The loop of [LoadFile] keeps the invariant when its keys are
    distinct and not yet stored, for every iteration order. *)
Lemma Inv_load_loop (nowUm : Z) (kvs : list (string * Item)) (c : Cache) :
  Inv c -> NoDup (map fst kvs) -> (forall k, In k (map fst kvs) -> lruMap c !! k = None) ->
  Inv (load_loop nowUm kvs c).
Proof.
  revert c. induction kvs as [|[k v] kvs IH]; intros c HI Hnd Hfree; simpl; [exact HI|].
  simpl in Hnd. apply NoDup_cons in Hnd as [Hk Hnd].
  destruct (negb (isExpired1 v nowUm)); apply IH; auto.
  - apply Inv_addFront; [exact HI|]. apply Hfree. left. reflexivity.
  - intros k' Hk'. rewrite addFront_lruMap_ne.
    + apply Hfree. right. exact Hk'.
    + intros ->. apply Hk, list_elem_of_In. exact Hk'.
  - intros k' Hk'. apply Hfree. right. exact Hk'.
Qed.

Lemma fmap_is_map {A B} (f : A -> B) (l : list A) : f <$> l = map f l.
Proof. induction l as [|x l IH]; simpl; [reflexivity|]. rewrite <- IH. reflexivity. Qed.

Lemma Inv_LoadFile (f : string) (now : Z) reg (c : Cache) (fs : FS) :
  Inv c -> Inv (snd (LoadFile f now reg c fs)).
Proof.
  intros HI. unfold LoadFile.
  destruct (os_Open fs f); [exact HI|]. destruct (serializer reg c); [exact HI|].
  destruct (DecodeFrom _ _) as [|data]; [exact HI|]. simpl.
  apply Inv_load_loop.
  - apply Inv_reset.
  - rewrite <- fmap_is_map. apply NoDup_fst_map_to_list.
  - intros k _. apply lookup_empty.
Qed.

(** Every public operation keeps the invariant. *)
Lemma Inv_exec (now : Z) (op : Op) (w : World) :
  Inv (w_cache w) -> Inv (w_cache (exec now op w)).
Proof.
  intros HI. destruct op; simpl.
  - apply Inv_setItem, HI.
  - apply Inv_Get, HI.
  - unfold Val_. pose proof (Inv_Get (w_cache w) key now HI) as H.
    destruct (Get key now (w_cache w)) as [[v b] c']. exact H.
  - apply Inv_mget_loop, HI.
  - apply Inv_mset_loop, HI.
  - exact HI.
  - exact HI.
  - exact HI.
  - apply Inv_removeElement, HI.
  - apply Inv_reset.
  - exact HI.
  - apply Inv_LoadFile, HI.
  - apply Inv_with_opt, HI.
  - exact HI.
Qed.

Lemma Inv_Reach (w : World) : Reach w -> Inv (w_cache w).
Proof.
  induction 1 as [optFns reg fs | now op w _ IH].
  - apply Inv_New.
  - apply Inv_exec, IH.
Qed.

Lemma Inv_KeySetsAgree (c : Cache) : Inv c -> KeySetsAgree c.
Proof.
  intros [Hids Hkeys Hfresh Hidx Hdom]. split; [|split].
  - apply set_eq. intros k. rewrite !elem_of_dom. apply Hdom.
  - intros k. rewrite elem_of_dom. unfold keys_of. rewrite in_map_iff. split.
    + intros [e He]. apply Hidx in He as [He Hv]. eauto.
    + intros (e & Hv & He). exists e. apply Hidx. auto.
  - exact Hkeys.
Qed.

(** ** Runs of [Set] on new keys *)

Lemma run_sets_app (P : list SetCall) (x : SetCall) (c : Cache) :
  run_sets (P ++ [x]) c = Set_ (sc_key x) (sc_value x) (sc_ttl x) (sc_now x) (run_sets P c).
Proof. unfold run_sets. rewrite fold_left_app. reflexivity. Qed.

Lemma Inv_lruMap_None_iff (c : Cache) (k : string) :
  Inv c -> lruMap c !! k = None <-> ~ In k (keys_of (lruList c)).
Proof.
  intros HI. unfold keys_of. rewrite in_map_iff. split.
  - intros Hk (e & Hv & He). assert (lruMap c !! k = Some e) by (apply (inv_index c HI); auto).
    congruence.
  - intros Hn. destruct (lruMap c !! k) as [e|] eqn:Hk; [|reflexivity].
    exfalso. apply (inv_index c HI) in Hk as [He Hv]. eauto.
Qed.

(** Filling an empty cache with at most [C] new keys evicts nothing. *)
Lemma run_sets_fill (C : Z) (P : list SetCall) :
  NoDup (map sc_key P) -> (Z.of_nat (length P) <= C)%Z ->
  let c := run_sets P (New [WithCapacity C; WithOnEvictFn true]) in
  Inv c /\ opt c = mkOptions C "json" true /\
  keys_of (lruList c) = rev (map sc_key P) /\ evlog c = [] /\
  (forall k it, items c !! k = Some it <-> exists x, In x P /\ sc_key x = k /\ it = call_item x).
Proof.
  induction P as [|x P IH] using rev_ind; intros Hnd Hlen; simpl.
  - split; [apply Inv_New|]. split; [reflexivity|]. split; [reflexivity|].
    split; [reflexivity|]. intros k it. rewrite lookup_empty. split; [discriminate|].
    intros (x & [] & _).
  - rewrite run_sets_app. rewrite map_app in Hnd. simpl in Hnd.
    apply NoDup_app in Hnd as (HndP & Hx & _).
    rewrite length_app in Hlen. simpl in Hlen.
    destruct (IH HndP ltac:(lia)) as (HI & Ho & Hk & Hl & Hit).
    set (c := run_sets P _) in *.
    assert (Hfree : lruMap c !! sc_key x = None).
    { apply Inv_lruMap_None_iff; [exact HI|]. rewrite Hk. rewrite <- in_rev.
      intros Hin. apply (Hx (sc_key x)); [apply list_elem_of_In; exact Hin | left]. }
    assert (Hlt : Z.geb (list_Len (lruList c)) (Capacity (opt c)) = false).
    { unfold list_Len. rewrite Ho. simpl.
      replace (length (l_elems (lruList c))) with (length P).
      - rewrite Z.geb_leb. apply Z.leb_gt. lia.
      - assert (HL : length (keys_of (lruList c)) = length P)
          by (rewrite Hk, length_rev, length_map; reflexivity).
        unfold keys_of in HL. rewrite length_map in HL. symmetry. exact HL. }
    unfold Set_, setItem. rewrite Hfree, Hlt.
    split; [apply Inv_addFront; assumption|].
    split; [exact Ho|]. split.
    { unfold addFront, keys_of. simpl. fold (keys_of (lruList c)). rewrite Hk.
      rewrite map_app, rev_app_distr. reflexivity. }
    split; [exact Hl|].
    intros k it. unfold addFront. simpl. destruct (decide (sc_key x = k)) as [<-|Hne].
    + rewrite lookup_insert_eq. split.
      * intros [= <-]. exists x. rewrite in_app_iff. simpl. auto.
      * intros (y & Hy & Hky & ->). apply in_app_iff in Hy as [Hy|[<-|[]]].
        -- exfalso. apply (Hx (sc_key x)); [|left]. apply list_elem_of_In.
           rewrite <- Hky. apply in_map. exact Hy.
        -- reflexivity.
    + rewrite lookup_insert_ne by exact Hne. rewrite Hit. split.
      * intros (y & Hy & Hky & ->). exists y. rewrite in_app_iff. auto.
      * intros (y & Hy & Hky & ->). apply in_app_iff in Hy as [Hy|[<-|[]]]; [eauto|].
        contradiction.
Qed.

Lemma list_Back_last (l : list Element) (xs : list string) (y : string) :
  map elem_value l = xs ++ [y] ->
  exists e, List.last (map Some l) None = Some e /\ elem_value e = y.
Proof.
  revert xs. induction l as [|e l IH]; intros xs H.
  - destruct xs; discriminate.
  - destruct xs as [|x xs]; simpl in H; injection H as Hv Hl.
    + destruct l; [|discriminate]. exists e. auto.
    + destruct (IH xs Hl) as (e' & He' & Hv').
      exists e'. split; [|exact Hv']. simpl. destruct l; [destruct xs; discriminate|].
      exact He'.
Qed.

(** [Keys] lists each stored key once. *)
Lemma Keys_NoDup (now : Z) (c : Cache) : NoDup (Keys now c).
Proof.
  unfold Keys, live_entries. apply NoDup_map_filter.
  rewrite <- fmap_is_map. apply NoDup_fst_map_to_list.
Qed.

Lemma Keys_In (now : Z) (c : Cache) (k : string) :
  In k (Keys now c) <->
  exists it, items c !! k = Some it /\ isExpired1 it (UnixMilli now) = false.
Proof.
  unfold Keys, live_entries. rewrite in_map_iff. split.
  - intros ([k' it] & <- & Hin). apply filter_In in Hin as [Hin Hb]. simpl in *.
    exists it. split.
    + apply elem_of_map_to_list, list_elem_of_In. exact Hin.
    + destruct (isExpired1 it _); [discriminate | reflexivity].
  - intros (it & Hit & He). exists (k, it). split; [reflexivity|].
    apply filter_In. split.
    + apply list_elem_of_In, elem_of_map_to_list. exact Hit.
    + simpl. rewrite He. reflexivity.
Qed.

(** ** C1: capacity [C] and [C+1] new keys *)

(** Claim C1. Starting from an empty cache of capacity [C >= 1] with an
    eviction callback installed, [Set] calls on [C+1] distinct new keys
    [k1 .. k(C+1)], none of them expired when [Keys] runs, evict exactly
    [k1]: the callback is called once, with [(k1, v1)], and [Keys()]
    returns exactly [k2 .. k(C+1)] (in some order). *)
Theorem set_capacity_plus_one_evicts_first (C : Z) (first : SetCall) (rest : list SetCall)
    (t : Z) :
  (1 <= C)%Z ->
  Z.of_nat (length rest) = C ->
  NoDup (map sc_key (first :: rest)) ->
  (forall x, In x (first :: rest) -> isExpired1 (call_item x) (UnixMilli t) = false) ->
  let c := run_sets (first :: rest) (New [WithCapacity C; WithOnEvictFn true]) in
  evlog c = [(sc_key first, sc_value first)] /\ Permutation (Keys t c) (map sc_key rest).
Proof.
  intros HC Hlen Hnd Hlive c.
  destruct (exists_last (l := rest)) as (mid & xl & Hrest).
  { intros ->. simpl in Hlen. lia. }
  subst rest. pose proof Hnd as Hnd'.
  simpl in Hnd. apply NoDup_cons in Hnd as [H1 Hndr].
  rewrite map_app in Hndr. apply NoDup_app in Hndr as (Hndm & Hxl & _).
  assert (HndP : NoDup (map sc_key (first :: mid))).
  { simpl. apply NoDup_cons. split; [|exact Hndm].
    intros Hin. apply H1. rewrite map_app. apply list_elem_of_In, in_or_app. left.
    apply list_elem_of_In. exact Hin. }
  rewrite length_app in Hlen. simpl in Hlen.
  destruct (run_sets_fill C (first :: mid) HndP ltac:(simpl; lia)) as (HI & Ho & Hk & Hl & Hit).
  unfold c. change (first :: mid ++ [xl]) with ((first :: mid) ++ [xl]).
  rewrite run_sets_app. set (c0 := run_sets (first :: mid) _) in *.
  (* the new key is not stored *)
  assert (Hfree : lruMap c0 !! sc_key xl = None).
  { apply Inv_lruMap_None_iff; [exact HI|]. rewrite Hk, <- in_rev. simpl.
    intros [Heq|Hin].
    - apply H1. rewrite Heq. apply list_elem_of_In, in_map, in_or_app. right. left.
      reflexivity.
    - apply (Hxl (sc_key xl)); [apply list_elem_of_In; exact Hin | left]. }
  (* the cache is full *)
  assert (Hge : Z.geb (list_Len (lruList c0)) (Capacity (opt c0)) = true).
  { unfold list_Len. rewrite Ho. simpl.
    assert (HL : length (keys_of (lruList c0)) = S (length mid))
      by (rewrite Hk, length_rev, length_map; reflexivity).
    unfold keys_of in HL. rewrite length_map in HL. rewrite HL.
    rewrite Z.geb_leb. apply Z.leb_le. lia. }
  (* the back of the list holds k1 *)
  assert (Hback : exists e, list_Back (lruList c0) = Some e /\ elem_value e = sc_key first).
  { unfold list_Back. apply (list_Back_last _ (rev (map sc_key mid))).
    fold (keys_of (lruList c0)). rewrite Hk. reflexivity. }
  destruct Hback as (e & Hb & He).
  assert (Hk1 : In (sc_key first) (keys_of (lruList c0))).
  { rewrite Hk, <- in_rev. left. reflexivity. }
  destruct (lruMap c0 !! sc_key first) as [e1|] eqn:He1.
  2:{ exfalso. apply Inv_lruMap_None_iff in He1; [|exact HI]. contradiction. }
  assert (Hi1 : items c0 !! sc_key first = Some (call_item first))
    by (apply Hit; exists first; simpl; auto).
  unfold Set_, setItem. rewrite Hfree, Hge. unfold evict. rewrite Hb, He.
  rewrite (removeElement_present c0 _ e1 _ He1 Hi1). simpl. rewrite Ho, Hl. simpl.
  split; [reflexivity|].
  (* the keys *)
  apply NoDup_Permutation.
  - apply Keys_NoDup.
  - rewrite map_app. apply NoDup_app. split; [exact Hndm|]. split; [exact Hxl|].
    apply NoDup_singleton.
  - intros k. rewrite !list_elem_of_In, Keys_In. unfold addFront. simpl.
    rewrite map_app, in_app_iff. simpl. split.
    + intros (it & Hik & Hexp). destruct (decide (sc_key xl = k)) as [<-|Hne]; [auto|].
      rewrite lookup_insert_ne in Hik by exact Hne.
      destruct (decide (sc_key first = k)) as [<-|Hne1];
        [rewrite lookup_delete_eq in Hik; discriminate|].
      rewrite lookup_delete_ne in Hik by exact Hne1.
      apply Hit in Hik as (y & [<-|Hy] & Hky & _); [contradiction|].
      left. rewrite <- Hky. apply in_map. exact Hy.
    + intros Hin. destruct (decide (sc_key xl = k)) as [<-|Hne].
      * rewrite lookup_insert_eq. eexists; split; [reflexivity|].
        apply Hlive. right. apply in_or_app. right. left. reflexivity.
      * rewrite lookup_insert_ne by exact Hne.
        destruct Hin as [Hin|[Heq|[]]]; [|contradiction].
        apply in_map_iff in Hin as (y & <- & Hy).
        assert (Hne1 : sc_key first <> sc_key y).
        { intros Heq. apply H1. rewrite Heq, map_app. apply list_elem_of_In, in_or_app.
          left. apply in_map. exact Hy. }
        rewrite lookup_delete_ne by exact Hne1.
        exists (call_item y). split.
        -- apply Hit. exists y. simpl. auto.
        -- apply Hlive. right. apply in_or_app. left. exact Hy.
Qed.

(** ** C2: the bijection between items, lruMap and lruList *)

(** Claim C2. In every world reachable from [New] by public operations
    (Set, MSet, Get, Val, MGet, Has, Keys, Len, Delete, Clear, SaveFile,
    LoadFile, Configure, SetSerializer), the key sets of [items], of
    [lruMap] and of [lruList] are equal, and each key is in the list
    exactly once. *)
Theorem reachable_key_sets_agree (w : World) :
  Reach w -> KeySetsAgree (w_cache w).
Proof. intros HR. apply Inv_KeySetsAgree, Inv_Reach, HR. Qed.

(** ** C3: a failed LoadFile leaves the cache alone *)

(** Claim C3. If [LoadFile] fails (open error, unregistered serializer,
    or decode error) it returns that error and the cache is exactly as
    before; it returns no error only after a successful decode, and only
    then clears the cache and refills it from the decoded map. *)
Theorem LoadFile_atomic (f : string) (now : Z) (reg : gmap string SerializerIface)
    (c : Cache) (fs : FS) :
  match LoadFile f now reg c fs with
  | (Some err, c') =>
      c' = c /\
      (os_Open fs f = inl err \/
       (exists d, os_Open fs f = inr d /\ serializer reg c = inl err) \/
       (exists d s, os_Open fs f = inr d /\ serializer reg c = inr s /\ DecodeFrom s d = inl err))
  | (None, c') =>
      exists d s data, os_Open fs f = inr d /\ serializer reg c = inr s /\
        DecodeFrom s d = inr data /\
        c' = load_loop (UnixMilli now) (map_to_list data) (reset c)
  end.
Proof.
  unfold LoadFile. destruct (os_Open fs f) as [err|d] eqn:Ho; [auto|].
  destruct (serializer reg c) as [err|s'] eqn:Hs; [eauto 6|].
  destruct (DecodeFrom s' d) as [err|data] eqn:Hd; [eauto 10|].
  exists d, s', data. auto.
Qed.

(** ** C10: a stored nil reads like an absent key in MGet and Val *)

Lemma mget_loop_items (nowUm : Z) (ks : list string) (res : gmap string Value) (c : Cache) :
  items (snd (mget_loop nowUm ks res c)) = items c.
Proof.
  revert res c. induction ks as [|k ks IH]; intros res c; simpl; [reflexivity|].
  destruct (items c !! k) as [it|]; [|apply IH].
  destruct (isExpired1 it nowUm); [apply IH|].
  rewrite IH. destruct (lruMap c !! k); reflexivity.
Qed.

(** [MGet] writes nil for a key that is absent, expired or holds nil:
    whatever the loop writes for such a key is nil. *)
Lemma mget_loop_nil_or_keep (nowUm : Z) (k : string) (c : Cache) :
  (forall it, items c !! k = Some it -> isExpired1 it nowUm = true \/ Val it = VNil) ->
  forall ks res c', items c' = items c ->
  fst (mget_loop nowUm ks res c') !! k = res !! k \/
  fst (mget_loop nowUm ks res c') !! k = Some VNil.
Proof.
  intros Hk ks. induction ks as [|k1 ks IH]; intros res c' Hc; simpl; [auto|].
  assert (Hins : forall v, (v = VNil \/ k1 <> k) ->
            fst (mget_loop nowUm ks (<[k1 := v]> res) c') !! k = res !! k \/
            fst (mget_loop nowUm ks (<[k1 := v]> res) c') !! k = Some VNil).
  { intros v Hv. destruct (IH (<[k1 := v]> res) c' Hc) as [H|H]; rewrite H; [|auto].
    destruct (decide (k1 = k)) as [->|Hne].
    - rewrite lookup_insert_eq. destruct Hv as [->|]; [auto | congruence].
    - rewrite lookup_insert_ne by exact Hne. auto. }
  destruct (items c' !! k1) as [it|] eqn:Hi; [|apply Hins; auto].
  destruct (isExpired1 it nowUm) eqn:He; [apply Hins; auto|].
  set (c'' := match lruMap c' !! k1 with
              | Some elem => with_lru (list_MoveToFront elem (lruList c')) (lruMap c') c'
              | None => c' end).
  assert (Hc'' : items c'' = items c) by (subst c''; destruct (lruMap c' !! k1); exact Hc).
  destruct (IH (<[k1 := Val it]> res) c'' Hc'') as [H|H]; rewrite H; [|auto].
  destruct (decide (k1 = k)) as [->|Hne].
  - rewrite lookup_insert_eq. rewrite Hc in Hi.
    destruct (Hk it ltac:(first [exact Hi | reflexivity])) as [Hx|Hv]; [congruence|]. rewrite Hv. auto.
  - rewrite lookup_insert_ne by exact Hne. auto.
Qed.

Lemma mget_loop_nil (nowUm : Z) (k : string) (ks : list string) (res : gmap string Value)
    (c : Cache) :
  (forall it, items c !! k = Some it -> isExpired1 it nowUm = true \/ Val it = VNil) ->
  In k ks -> fst (mget_loop nowUm ks res c) !! k = Some VNil.
Proof.
  intros Hk. revert res. induction ks as [|k1 ks IH]; intros res Hin; [destruct Hin|].
  (* the loop never changes the items, so it keeps running on [c]'s items *)
  assert (Hgen : forall res' c', items c' = items c -> In k (k1 :: ks) ->
            fst (mget_loop nowUm (k1 :: ks) res' c') !! k = Some VNil).
  { clear IH Hin res. revert k1. induction ks as [|k2 ks IH]; intros k1 res' c' Hc Hin.
    - destruct Hin as [->|[]]. simpl.
      destruct (items c' !! k) as [it|] eqn:Hi; simpl; [|apply lookup_insert_eq].
      rewrite Hc in Hi.
      destruct (isExpired1 it nowUm) eqn:He; simpl; [apply lookup_insert_eq|].
      destruct (Hk it Hi) as [Hx|Hv]; [congruence|].
      destruct (lruMap c' !! k); simpl; rewrite lookup_insert_eq, Hv; reflexivity.
    - destruct Hin as [->|Hin].
      + simpl.
        assert (Hkeep : forall v c'', v = VNil -> items c'' = items c ->
                  fst (mget_loop nowUm (k2 :: ks) (<[k := v]> res') c'') !! k = Some VNil).
        { intros v c'' -> Hc''.
          destruct (mget_loop_nil_or_keep nowUm k c Hk (k2 :: ks) (<[k := VNil]> res') c'' Hc'')
            as [H|H]; rewrite H; [apply lookup_insert_eq | reflexivity]. }
        destruct (items c' !! k) as [it|] eqn:Hi; [|apply Hkeep; auto].
        rewrite Hc in Hi.
        destruct (isExpired1 it nowUm) eqn:He; [apply Hkeep; auto|].
        destruct (Hk it Hi) as [Hx|Hv]; [congruence|].
        apply Hkeep; [exact Hv|]. destruct (lruMap c' !! k); exact Hc.
      + simpl.
        destruct (items c' !! k1) as [it|] eqn:Hi; [|apply IH; auto].
        destruct (isExpired1 it nowUm) eqn:He; [apply IH; auto|].
        apply IH; [|exact Hin]. destruct (lruMap c' !! k1); exact Hc. }
  apply Hgen; [reflexivity | exact Hin].
Qed.

Lemma Val_is_Get_value (k : string) (now : Z) (c : Cache) :
  fst (Val_ k now c) = fst (fst (Get k now c)).
Proof. unfold Val_. destruct (Get k now c) as [[v b] c']. reflexivity. Qed.

(** Claim C10. A live entry holding nil is mapped to nil by [MGet] and
    read as nil by [Val], exactly as a missing or expired key is, while
    [Get] on it still returns [(nil, true)] (and [(nil, false)] on a
    missing or expired key). *)
Theorem nil_value_reads_like_absent (c : Cache) (k : string) (ks : list string) (now : Z)
    (it : Item) :
  items c !! k = Some it -> Val it = VNil -> isExpired it now = false -> In k ks ->
  fst (MGet ks now c) !! k = Some VNil /\ fst (Val_ k now c) = VNil /\
  fst (Get k now c) = (VNil, true) /\
  (forall c0 : Cache,
     (items c0 !! k = None \/ exists it0, items c0 !! k = Some it0 /\ isExpired it0 now = true) ->
     fst (MGet ks now c0) !! k = Some VNil /\ fst (Val_ k now c0) = VNil /\
     fst (Get k now c0) = (VNil, false)).
Proof.
  intros Hi Hv He Hin.
  assert (Hget : fst (Get k now c) = (VNil, true)).
  { unfold Get. rewrite Hi, He. rewrite Hv. reflexivity. }
  split; [|split; [|split]].
  - unfold MGet. apply mget_loop_nil; [|exact Hin].
    intros it' Hi'. rewrite Hi in Hi'. injection Hi' as <-. right. exact Hv.
  - rewrite Val_is_Get_value, Hget. reflexivity.
  - exact Hget.
  - intros c0 Hc0.
    assert (Hget0 : fst (Get k now c0) = (VNil, false)).
    { unfold Get. destruct Hc0 as [H0|(it0 & H0 & He0)]; rewrite H0; [reflexivity|].
      rewrite He0. reflexivity. }
    split; [|split].
    + unfold MGet. apply mget_loop_nil; [|exact Hin].
      intros it' Hi'. left. destruct Hc0 as [H0|(it0 & H0 & He0)]; [congruence|].
      rewrite H0 in Hi'. injection Hi' as <-. exact He0.
    + rewrite Val_is_Get_value, Hget0. reflexivity.
    + exact Hget0.
Qed.

(** ** What removes expired entries *)

Lemma removeElement_items (c : Cache) (k : string) :
  Inv c -> items (snd (removeElement k c)) = delete k (items c).
Proof.
  intros HI. destruct (lruMap c !! k) as [e|] eqn:Hk.
  - destruct (Inv_items_Some c k e HI Hk) as [it Hit].
    rewrite (removeElement_present c k e it Hk Hit). reflexivity.
  - rewrite removeElement_absent by assumption. simpl.
    symmetry. apply delete_id. apply Inv_items_None; assumption.
Qed.

Lemma Get_items (k : string) (now : Z) (c : Cache) :
  items (snd (Get k now c)) =
  match items c !! k with
  | Some it => if isExpired it now then delete k (items c) else items c
  | None => items c
  end.
Proof.
  unfold Get. destruct (items c !! k) as [it|] eqn:Hi; [|reflexivity].
  destruct (isExpired it now); simpl.
  - unfold removeElement. destruct (lruMap c !! k); simpl; rewrite Hi; reflexivity.
  - destruct (lruMap c !! k); reflexivity.
Qed.


(** ** SaveFile and LoadFile with an unregistered serializer *)

Lemma list_to_map_nonempty_size (l : list (string * Item)) :
  l <> [] -> size (list_to_map l : gmap string Item) <> 0%nat.
Proof.
  destruct l as [|[k it] l]; [tauto|]. intros _ H0.
  apply map_size_empty_iff in H0. simpl in H0. exact (insert_non_empty _ _ _ H0).
Qed.

Lemma list_to_map_nil_size :
  size (list_to_map [] : gmap string Item) = 0%nat.
Proof. reflexivity. Qed.

(** With at least one live entry and no serializer under the configured
    name, [SaveFile] opens (creating or truncating) the file first and
    only then fails to resolve the serializer. *)
Lemma SaveFile_unresolved (f : string) (now : Z) (reg : gmap string SerializerIface)
    (c : Cache) (fs : FS) :
  live_entries (UnixMilli now) (items c) <> [] ->
  reg !! Serializer (opt c) = None ->
  SaveFile f now reg c fs =
    (if decide (f ∈ denied fs) then (Some (ErrOpen f), fs)
     else (Some (ErrNew ("not registered serializer: " ++ Serializer (opt c))),
           mkFS (<[f := DocRaw ""]> (files fs)) (denied fs) (unreadable fs))).
Proof.
  intros Hl Hr. unfold SaveFile.
  destruct (decide (size _ = 0%nat)) as [H0|_];
    [exfalso; exact (list_to_map_nonempty_size _ Hl H0)|].
  unfold OpenTruncFile. destruct (decide (f ∈ denied fs)); [reflexivity|].
  unfold serializer. rewrite Hr. reflexivity.
Qed.


(** Counterexample to claim C6: with a live entry and its serializer
    removed from the registry, [SaveFile] truncates an existing file
    (and creates a missing one) before returning the resolution error. *)
Lemma SaveFile_unregistered_truncates :
  SaveFile "f" 0 reg_removed cache_custom (mkFS {[ "f" := DocJson JNull ]} ∅ ∅) =
    (Some (ErrNew "not registered serializer: custom"), mkFS {[ "f" := DocRaw "" ]} ∅ ∅) /\
  SaveFile "f" 0 reg_removed cache_custom (mkFS ∅ ∅ ∅) =
    (Some (ErrNew "not registered serializer: custom"), mkFS {[ "f" := DocRaw "" ]} ∅ ∅).
Proof. split; vm_compute; reflexivity. Qed.

(** Claim C6, as the code has it. On a cache with at least one live
    entry whose serializer name is not registered, [SaveFile] leaves the
    cache unchanged and: if the file can be opened for writing, creates
    or truncates it to empty and returns the resolution error
    ["not registered serializer: " ++ name]; otherwise returns the open
    error and leaves the files unchanged. *)
Theorem SaveFile_unregistered_serializer (f : string) (now : Z)
    (reg : gmap string SerializerIface) (c : Cache) (fs : FS) :
  live_entries (UnixMilli now) (items c) <> [] ->
  reg !! Serializer (opt c) = None ->
  w_cache (exec now (OpSaveFile f) (mkWorld c reg fs)) = c /\
  (f ∉ denied fs ->
   SaveFile f now reg c fs =
     (Some (ErrNew ("not registered serializer: " ++ Serializer (opt c))),
      mkFS (<[f := DocRaw ""]> (files fs)) (denied fs) (unreadable fs))) /\
  (f ∈ denied fs -> SaveFile f now reg c fs = (Some (ErrOpen f), fs)).
Proof.
  intros Hl Hr. split; [reflexivity|].
  rewrite (SaveFile_unresolved f now reg c fs Hl Hr).
  split; intros Hd; destruct (decide (f ∈ denied fs)); tauto.
Qed.



(** ** Len and Keys *)


Lemma in_map_to_list_iff (m : gmap string Item) (k : string) (it : Item) :
  In (k, it) (map_to_list m) <-> m !! k = Some it.
Proof. rewrite <- list_elem_of_In. apply elem_of_map_to_list. Qed.





(** ** Set on a present key *)

Lemma map_filter_commute {A B} (f : A -> B) (q : A -> bool) (p : B -> bool) (l : list A) :
  (forall x, In x l -> q x = p (f x)) ->
  map f (List.filter q l) = List.filter p (map f l).
Proof.
  induction l as [|x l IH]; simpl; intros H; [reflexivity|].
  rewrite (H x (or_introl eq_refl)). destruct (p (f x)); simpl; [f_equal|];
    apply IH; intros y Hy; apply H; right; exact Hy.
Qed.

(** Removing an element by identity removes its key from [keys_of]. *)
Lemma keys_of_filter (c : Cache) (k : string) (e : Element) :
  Inv c -> lruMap c !! k = Some e ->
  map elem_value (List.filter (not_elem e) (l_elems (lruList c))) =
  List.filter (fun x => negb (String.eqb x k)) (keys_of (lruList c)).
Proof.
  intros HI Hk. destruct (proj1 (inv_index c HI k e) Hk) as [He Hv].
  apply map_filter_commute. intros x Hx. unfold not_elem.
  destruct (Nat.eqb_spec (elem_id x) (elem_id e)) as [Hid|Hid];
    destruct (String.eqb_spec (elem_value x) k) as [Hxk|Hxk]; simpl; try reflexivity.
  - exfalso. apply Hxk. rewrite <- Hv. f_equal.
    exact (NoDup_map_inj_in elem_id _ x e (inv_ids c HI) Hx He Hid).
  - exfalso. apply Hid. f_equal.
    refine (NoDup_map_inj_in elem_value _ x e (inv_keys c HI) Hx He _). congruence.
Qed.

(** Counterexample to claim C7: with capacity 1, re-setting the only key
    and then setting a new key evicts the just-refreshed key. *)
Lemma refreshed_key_evicted_at_capacity_one :
  let c := Set_ "b" (VInt 3) 0 0
             (Set_ "a" (VInt 2) 0 0
               (Set_ "a" (VInt 1) 0 0 (New [WithCapacity 1; WithOnEvictFn true]))) in
  evlog c = [("a", VInt 2)] /\ items c !! "a" = None.
Proof. vm_compute. split; reflexivity. Qed.

(** Claim C7, as the code has it. On a reachable cache, [Set] on a
    present key invokes no eviction callback, replaces the key's item,
    and moves the key to the front of the recency list, the other keys
    keeping their order. A following eviction removes the least
    recently touched other key when there is one, and the refreshed key
    itself when it is the only key. *)
Theorem Set_present_key_refreshes (w : World) (k : string) (v : Value) (ttl now : Z) :
  Reach w -> is_Some (items (w_cache w) !! k) ->
  let c := w_cache w in
  let c' := Set_ k v ttl now c in
  let others := List.filter (fun x => negb (String.eqb x k)) (keys_of (lruList c)) in
  evlog c' = evlog c /\
  items c' = <[k := mkItem v (expOf ttl now)]> (items c) /\
  keys_of (lruList c') = k :: others /\
  (forall xs k', others = xs ++ [k'] ->
     k' <> k /\ items (evict c') !! k' = None /\
     items (evict c') !! k = Some (mkItem v (expOf ttl now))) /\
  (others = [] -> items (evict c') !! k = None).
Proof.
  intros HR Hs c c' others.
  assert (HI : Inv c) by exact (Inv_Reach w HR).
  destruct (proj1 (inv_dom c HI k) Hs) as [e Hk].
  destruct (proj1 (inv_index c HI k e) Hk) as [He Hv].
  assert (HI' : Inv c') by apply Inv_setItem, HI.
  assert (Hc' : c' = with_items (<[k := mkItem v (expOf ttl now)]> (items c))
                      (with_lru (list_MoveToFront e (lruList c)) (lruMap c) c))
    by (unfold c', Set_, setItem; rewrite Hk; reflexivity).
  assert (Hkeys : keys_of (lruList c') = k :: others).
  { rewrite Hc'. simpl. unfold keys_of.
    rewrite (proj1 (list_MoveToFront_perm e (lruList c) (inv_ids c HI) He)). simpl.
    rewrite Hv. f_equal. exact (keys_of_filter c k e HI Hk). }
  assert (Hev : forall k', keys_of (lruList c') = (k :: others) ->
                (exists xs, k :: others = xs ++ [k']) ->
                items (evict c') = delete k' (items c')).
  { intros k' _ [xs Hxs].
    destruct (list_Back_last (l_elems (lruList c')) xs k') as [e' [Hb He']];
      [unfold keys_of in Hkeys; rewrite Hkeys; exact Hxs|].
    unfold evict, list_Back. rewrite Hb, He'. apply removeElement_items, HI'. }
  split; [rewrite Hc'; reflexivity|]. split; [rewrite Hc'; reflexivity|].
  split; [exact Hkeys|]. split.
  - intros xs k' Ho.
    assert (Hk'k : k' <> k).
    { assert (Hin : In k' others) by (rewrite Ho; apply in_or_app; right; left; reflexivity).
      unfold others in Hin. apply filter_In in Hin as [_ Hb].
      destruct (String.eqb_spec k' k); [discriminate|assumption]. }
    rewrite (Hev k' Hkeys (ex_intro _ (k :: xs) (f_equal (cons k) Ho))).
    split; [exact Hk'k|]. split; [apply lookup_delete_eq|].
    rewrite lookup_delete_ne by congruence. rewrite Hc'. simpl. apply lookup_insert_eq.
  - intros Ho. rewrite (Hev k Hkeys (ex_intro _ [] (f_equal (cons k) Ho))).
    apply lookup_delete_eq.
Qed.

(** ** Save, clear and load through JSONSerializer *)















Lemma items_addFront (k : string) (it : Item) (c : Cache) :
  items (addFront k it c) = <[k := it]> (items c).
Proof. unfold addFront, list_PushFront. reflexivity. Qed.

Lemma load_loop_items (nowUm : Z) (kvs : list (string * Item)) (c : Cache) :
  NoDup (map fst kvs) ->
  (forall k v, In (k, v) kvs ->
     items (load_loop nowUm kvs c) !! k = if isExpired1 v nowUm then items c !! k else Some v) /\
  (forall k, ~ In k (map fst kvs) -> items (load_loop nowUm kvs c) !! k = items c !! k).
Proof.
  revert c. induction kvs as [|[k0 v0] kvs IH]; intros c Hnd; simpl.
  - split; [intros k v []|reflexivity].
  - apply NoDup_ListNoDup in Hnd. inversion Hnd as [|? ? Hk0 Hnd']. subst.
    apply NoDup_ListNoDup in Hnd'.
    set (c1 := if negb (isExpired1 v0 nowUm) then addFront k0 v0 c else c).
    assert (Hstep : load_loop nowUm ((k0, v0) :: kvs) c = load_loop nowUm kvs c1)
      by (unfold c1; simpl; destruct (isExpired1 v0 nowUm); reflexivity).
    simpl in Hstep. rewrite Hstep.
    destruct (IH c1 Hnd') as [Hin Hout].
    assert (Hc1 : forall k, k <> k0 -> items c1 !! k = items c !! k).
    { intros k Hne. unfold c1. destruct (isExpired1 v0 nowUm); cbn [negb]; [reflexivity|].
      rewrite items_addFront. apply lookup_insert_ne. congruence. }
    split.
    + intros k v [Heq|Hi].
      * injection Heq as <- <-. rewrite (Hout k0 Hk0). unfold c1.
        destruct (isExpired1 v0 nowUm); cbn [negb]; [reflexivity|].
        rewrite items_addFront. apply lookup_insert_eq.
      * rewrite (Hin k v Hi). destruct (isExpired1 v nowUm); [|reflexivity].
        apply Hc1. intros ->. apply Hk0. apply in_map_iff. exists (k0, v). auto.
    + intros k Hk. rewrite Hout by tauto. apply Hc1. intros ->. tauto.
Qed.

Lemma lookup_live_map (nowUm : Z) (m : gmap string Item) (k : string) :
  (list_to_map (live_entries nowUm m) : gmap string Item) !! k =
  match m !! k with
  | Some it => if isExpired1 it nowUm then None else Some it
  | None => None
  end.
Proof.
  assert (Hnd : NoDup (map fst (live_entries nowUm m))).
  { unfold live_entries. apply NoDup_map_filter. rewrite <- fmap_is_map.
    apply NoDup_fst_map_to_list. }
  assert (Hiff : forall it, In (k, it) (live_entries nowUm m) <->
                 m !! k = Some it /\ isExpired1 it nowUm = false).
  { intros it. unfold live_entries. rewrite filter_In, in_map_to_list_iff. simpl.
    destruct (isExpired1 it nowUm); intuition discriminate. }
  destruct ((list_to_map (live_entries nowUm m) : gmap string Item) !! k) as [it|] eqn:Hl.
  - apply elem_of_list_to_map in Hl; [|rewrite <- fmap_is_map in Hnd; exact Hnd].
    apply list_elem_of_In, Hiff in Hl as [-> ->]. reflexivity.
  - destruct (m !! k) as [it|] eqn:Hm; [|reflexivity].
    destruct (isExpired1 it nowUm) eqn:He; [reflexivity|].
    exfalso. assert (Hin : In (k, it) (live_entries nowUm m)) by (apply Hiff; auto).
    apply list_elem_of_In in Hin.
    rewrite <- fmap_is_map in Hnd.
    pose proof (elem_of_list_to_map_1 (M := gmap string) _ k it Hnd Hin). congruence.
Qed.



(** ** Instances of the claims' theorems on concrete inputs *)

Lemma set_capacity_plus_one_evicts_first_witness :
  let first := mkSetCall "a" (VInt 1) 0 0 in
  let rest := [mkSetCall "b" (VInt 2) 0 0] in
  (1 <= 1)%Z /\ Z.of_nat (length rest) = 1%Z /\ NoDup (map sc_key (first :: rest)) /\
  (forall x, In x (first :: rest) -> isExpired1 (call_item x) (UnixMilli 0) = false) /\
  (let c := run_sets (first :: rest) (New [WithCapacity 1; WithOnEvictFn true]) in
   evlog c = [(sc_key first, sc_value first)] /\ Permutation (Keys 0 c) (map sc_key rest)).
Proof.
  intros first rest.
  assert (h1 : (1 <= 1)%Z) by lia.
  assert (h2 : Z.of_nat (length rest) = 1%Z) by reflexivity.
  assert (h3 : NoDup (map sc_key (first :: rest)))
    by (apply (bool_decide_unpack _); vm_compute; reflexivity).
  assert (h4 : forall x, In x (first :: rest) -> isExpired1 (call_item x) (UnixMilli 0) = false)
    by (simpl; intros x [<-|[<-|[]]]; reflexivity).
  exact (conj h1 (conj h2 (conj h3 (conj h4
    (set_capacity_plus_one_evicts_first 1 first rest 0 h1 h2 h3 h4))))).
Defined.

Lemma reachable_key_sets_agree_witness :
  let w := exec 0 (OpSet "a" (VInt 1) 0) (mkWorld (New []) serializers0 (mkFS ∅ ∅ ∅)) in
  Reach w /\ KeySetsAgree (w_cache w).
Proof.
  intros w.
  assert (h : Reach w) by exact (Reach_step 0 _ _ (Reach_New [] serializers0 (mkFS ∅ ∅ ∅))).
  exact (conj h (reachable_key_sets_agree w h)).
Defined.


Lemma SaveFile_unregistered_serializer_witness :
  live_entries (UnixMilli 0) (items cache_custom) <> [] /\
  reg_removed !! Serializer (opt cache_custom) = None /\
  (w_cache (exec 0 (OpSaveFile "f") (mkWorld cache_custom reg_removed (mkFS ∅ ∅ ∅))) = cache_custom /\
   ("f" ∉ denied (mkFS ∅ ∅ ∅) ->
    SaveFile "f" 0 reg_removed cache_custom (mkFS ∅ ∅ ∅) =
      (Some (ErrNew ("not registered serializer: " ++ Serializer (opt cache_custom))),
       mkFS (<["f" := DocRaw ""]> (files (mkFS ∅ ∅ ∅))) (denied (mkFS ∅ ∅ ∅)) (unreadable (mkFS ∅ ∅ ∅)))) /\
   ("f" ∈ denied (mkFS ∅ ∅ ∅) ->
    SaveFile "f" 0 reg_removed cache_custom (mkFS ∅ ∅ ∅) = (Some (ErrOpen "f"), mkFS ∅ ∅ ∅))).
Proof.
  assert (h1 : live_entries (UnixMilli 0) (items cache_custom) <> []) by (vm_compute; discriminate).
  assert (h2 : reg_removed !! Serializer (opt cache_custom) = None) by (vm_compute; reflexivity).
  exact (conj h1 (conj h2
    (SaveFile_unregistered_serializer "f" 0 reg_removed cache_custom (mkFS ∅ ∅ ∅) h1 h2))).
Defined.

Lemma Set_present_key_refreshes_witness :
  let w := exec 0 (OpSet "b" (VInt 2) 0) (exec 0 (OpSet "a" (VInt 1) 0)
             (mkWorld (New [WithCapacity 2; WithOnEvictFn true]) serializers0 (mkFS ∅ ∅ ∅))) in
  Reach w /\ is_Some (items (w_cache w) !! "a") /\
  (let c := w_cache w in
   let c' := Set_ "a" (VInt 3) 0 0 c in
   let others := List.filter (fun x => negb (String.eqb x "a")) (keys_of (lruList c)) in
   (evlog c' = evlog c /\
    items c' = <["a" := mkItem (VInt 3) (expOf 0 0)]> (items c) /\
    keys_of (lruList c') = "a" :: others /\
    (forall xs k', others = xs ++ [k'] ->
       k' <> "a" /\ items (evict c') !! k' = None /\
       items (evict c') !! "a" = Some (mkItem (VInt 3) (expOf 0 0))) /\
    (others = [] -> items (evict c') !! "a" = None)) /\
   others = [] ++ ["b"] /\
   "b" <> "a" /\ items (evict c') !! "b" = None /\
   items (evict c') !! "a" = Some (mkItem (VInt 3) (expOf 0 0))).
Proof.
  intros w.
  assert (h1 : Reach w)
    by exact (Reach_step 0 _ _ (Reach_step 0 _ _
                (Reach_New [WithCapacity 2; WithOnEvictFn true] serializers0 (mkFS ∅ ∅ ∅)))).
  assert (h2 : is_Some (items (w_cache w) !! "a"))
    by (vm_compute; exists (mkItem (VInt 1) 0); reflexivity).
  destruct (Set_present_key_refreshes w "a" (VInt 3) 0 0 h1 h2) as (H1 & H2 & H3 & H4 & H5).
  assert (h3 : List.filter (fun x => negb (String.eqb x "a")) (keys_of (lruList (w_cache w)))
               = [] ++ ["b"]) by (vm_compute; reflexivity).
  destruct (H4 [] "b" h3) as (H6 & H7 & H8).
  exact (conj h1 (conj h2 (conj (conj H1 (conj H2 (conj H3 (conj H4 H5))))
                             (conj h3 (conj H6 (conj H7 H8)))))).
Defined.


Lemma nil_value_reads_like_absent_witness :
  let c := Set_ "n" VNil 0 0 (New []) in
  let it := mkItem VNil 0 in
  items c !! "n" = Some it /\ Val it = VNil /\ isExpired it 0 = false /\ In "n" ["n"] /\
  (fst (MGet ["n"] 0 c) !! "n" = Some VNil /\ fst (Val_ "n" 0 c) = VNil /\
   fst (Get "n" 0 c) = (VNil, true) /\
   (forall c0 : Cache,
      (items c0 !! "n" = None \/
       exists it0, items c0 !! "n" = Some it0 /\ isExpired it0 0 = true) ->
      fst (MGet ["n"] 0 c0) !! "n" = Some VNil /\ fst (Val_ "n" 0 c0) = VNil /\
      fst (Get "n" 0 c0) = (VNil, false))).
Proof.
  intros c it.
  assert (h1 : items c !! "n" = Some it) by (vm_compute; reflexivity).
  assert (h2 : Val it = VNil) by reflexivity.
  assert (h3 : isExpired it 0 = false) by reflexivity.
  assert (h4 : In "n" ["n"]) by (simpl; left; reflexivity).
  exact (conj h1 (conj h2 (conj h3 (conj h4
    (nil_value_reads_like_absent c "n" ["n"] 0 it h1 h2 h3 h4))))).
Defined.

(** ** Further properties of the cache *)

Lemma setItem_items_self (k : string) (v : Value) (exp : Z) (c : Cache) :
  items (setItem k v exp c) !! k = Some (mkItem v exp).
Proof.
  unfold setItem. destruct (lruMap c !! k).
  - apply lookup_insert_eq.
  - rewrite items_addFront. apply lookup_insert_eq.
Qed.

Lemma Get_live (k : string) (now : Z) (c : Cache) (it : Item) :
  items c !! k = Some it -> isExpired it now = false -> fst (Get k now c) = (Val it, true).
Proof. intros Hi He. unfold Get. rewrite Hi, He. destruct (lruMap c !! k); reflexivity. Qed.

Lemma Get_expired_fst (k : string) (now : Z) (c : Cache) (it : Item) :
  items c !! k = Some it -> isExpired it now = true -> fst (Get k now c) = (VNil, false).
Proof. intros Hi He. unfold Get. rewrite Hi, He. reflexivity. Qed.

Lemma Get_absent (k : string) (now : Z) (c : Cache) :
  items c !! k = None -> Get k now c = ((VNil, false), c).
Proof. intros Hi. unfold Get. rewrite Hi. reflexivity. Qed.

(** [Set] then [Get] of the same key: with [ttl <= 0] the value is
    returned at any later clock; with [ttl > 0] it is returned exactly
    while the clock's Unix millisecond is at most that of [now0 + ttl],
    except when that millisecond is 0, the code's marker for no expiry:
    then the value is returned at any clock. *)
Theorem Set_then_Get (k : string) (v : Value) (ttl now0 now : Z) (c : Cache) :
  ((ttl <= 0)%Z -> fst (Get k now (Set_ k v ttl now0 c)) = (v, true)) /\
  ((0 < ttl)%Z -> UnixMilli (now0 + ttl) = 0%Z -> fst (Get k now (Set_ k v ttl now0 c)) = (v, true)) /\
  ((0 < ttl)%Z -> UnixMilli (now0 + ttl) <> 0%Z ->
   (fst (Get k now (Set_ k v ttl now0 c)) = (v, true) <->
    (UnixMilli now <= UnixMilli (now0 + ttl))%Z) /\
   (fst (Get k now (Set_ k v ttl now0 c)) = (VNil, false) <->
    (UnixMilli (now0 + ttl) < UnixMilli now)%Z)).
Proof.
  pose proof (setItem_items_self k v (expOf ttl now0) c) as Hi. fold (Set_ k v ttl now0 c) in Hi.
  split.
  - intros Ht. apply (Get_live _ _ _ _ Hi). unfold isExpired, isExpired1, expOf. simpl.
    destruct (Z.ltb_spec 0 ttl); [lia|reflexivity].
  - split.
    { intros Ht Hz. apply (Get_live _ _ _ _ Hi). unfold isExpired, isExpired1, expOf. simpl.
      destruct (Z.ltb_spec 0 ttl); [|lia]. rewrite Hz. reflexivity. }
    intros Ht Hz.
    assert (He : isExpired (mkItem v (expOf ttl now0)) now =
                 Z.ltb (UnixMilli (now0 + ttl)) (UnixMilli now)).
    { unfold isExpired, isExpired1, expOf. simpl.
      destruct (Z.ltb_spec 0 ttl); [|lia]. destruct (Z.eqb_spec (UnixMilli (now0 + ttl)) 0); [lia|].
      reflexivity. }
    destruct (Z.ltb_spec (UnixMilli (now0 + ttl)) (UnixMilli now)) as [Hlt|Hge].
    + rewrite (Get_expired_fst _ _ _ _ Hi He).
      split; split; intros H; first [discriminate | lia | reflexivity].
    + rewrite (Get_live _ _ _ _ Hi He). simpl.
      split; split; intros H; first [discriminate | lia | reflexivity].
Qed.

(** [Has] looks at the stored entries only: an expired entry that is
    still stored is reported present by [Has], while [Get] reports it
    absent and removes it, after which [Has] is false. *)
Theorem Has_sees_expired_entry (k : string) (now : Z) (c : Cache) (it : Item) :
  items c !! k = Some it -> isExpired it now = true ->
  Has k c = true /\ fst (Get k now c) = (VNil, false) /\ Has k (snd (Get k now c)) = false.
Proof.
  intros Hi He. unfold Has. rewrite Hi. split; [reflexivity|].
  split; [exact (Get_expired_fst _ _ _ _ Hi He)|].
  rewrite Get_items, Hi, He, lookup_delete_eq. reflexivity.
Qed.

(** [Keys] lists every stored key whose entry has not expired, each
    exactly once, and no other key. *)
Theorem Keys_exactly_live (now : Z) (c : Cache) :
  NoDup (Keys now c) /\
  forall k, In k (Keys now c) <-> exists it, items c !! k = Some it /\ isExpired it now = false.
Proof. split; [apply Keys_NoDup|]. intros k. apply Keys_In. Qed.

(** The package's [Get[T]]: a stored, unexpired value is returned with
    [true] exactly when the type assertion to [T] succeeds, otherwise
    the zero value of [T] and [false]; a stored nil is never found, for
    any [T] (also [any]), although the method [Get] reports it with
    [true]. The cache is left as the method [Get] leaves it. *)
Theorem GetT_result (t : GoType) (k : string) (now : Z) (c : Cache) :
  fst (GetT t k now c) =
    match items c !! k with
    | Some it =>
        if isExpired it now then (zero t, false)
        else match type_assert (Val it) t with
             | Some v => (v, true)
             | None => (zero t, false)
             end
    | None => (zero t, false)
    end /\
  snd (GetT t k now c) = snd (Get k now c) /\
  (forall it, items c !! k = Some it -> isExpired it now = false -> Val it = VNil ->
   fst (GetT t k now c) = (zero t, false) /\ fst (Get k now c) = (VNil, true)).
Proof.
  unfold GetT, Get. destruct (items c !! k) as [it|] eqn:Hi.
  - destruct (isExpired it now) eqn:He; simpl.
    + split; [reflexivity|]. split; [reflexivity|]. intros it' Hi' He'. congruence.
    + destruct (type_assert (Val it) t) as [v|] eqn:Ht; simpl.
      * split; [reflexivity|]. split; [reflexivity|]. intros it' Hi' _ Hv.
        injection Hi' as <-. rewrite Hv in Ht. discriminate.
      * split; [reflexivity|]. split; [reflexivity|]. intros it' Hi' _ Hv.
        injection Hi' as <-. rewrite Hv. split; reflexivity.
  - simpl. split; [reflexivity|]. split; [reflexivity|]. intros it' Hi'. discriminate.
Qed.





(** [WithSerializer] panics exactly when the name is not registered.
    After [SetSerializer(name, s)], [WithSerializer(name)] does not
    panic, and a cache configured with it resolves [s] for
    [SaveFile]/[LoadFile], with its other options and entries as they
    were. *)
Theorem SetSerializer_then_WithSerializer (reg : gmap string SerializerIface) (name : string)
    (s : SerializerIface) (c : Cache) :
  (WithSerializer reg name = None <-> reg !! name = None) /\
  exists fn, WithSerializer (SetSerializer name (Some s) reg) name = Some fn /\
    serializer (SetSerializer name (Some s) reg) (Configure [fn] c) = inr s /\
    Capacity (opt (Configure [fn] c)) = Capacity (opt c) /\
    OnEvicted (opt (Configure [fn] c)) = OnEvicted (opt c) /\
    items (Configure [fn] c) = items c.
Proof.
  split.
  - unfold WithSerializer. destruct (reg !! name); split; intros H; congruence.
  - unfold WithSerializer, SetSerializer. rewrite lookup_insert_eq.
    eexists. split; [reflexivity|]. unfold serializer. simpl.
    rewrite lookup_insert_eq. repeat split.
Qed.

Lemma Inv_size (c : Cache) : Inv c -> length (l_elems (lruList c)) = size (items c).
Proof.
  intros HI. destruct (Inv_KeySetsAgree c HI) as (Hdom & Hin & Hnd).
  rewrite <- (size_dom (D := gset string) (items c)).
  assert (Hs : dom (items c) = (list_to_set (keys_of (lruList c)) : gset string)).
  { apply set_eq. intros k. rewrite Hdom, elem_of_list_to_set, list_elem_of_In. apply Hin. }
  rewrite Hs, size_list_to_set by exact Hnd. unfold keys_of. rewrite length_map. reflexivity.
Qed.

Lemma last_map_Some (l : list Element) :
  (forall e, List.last (map Some l) None = Some e -> In e l) /\
  (List.last (map Some l) None = None -> l = []).
Proof.
  induction l as [|x l [IHs IHn]]; [split; [discriminate|reflexivity]|].
  destruct l as [|y l].
  - simpl. split; [intros e [= ->]; left; reflexivity|discriminate].
  - split.
    + intros e He. right. apply IHs. exact He.
    + intros He. apply IHn in He. discriminate.
Qed.

Lemma Inv_back_index (c : Cache) (e : Element) :
  Inv c -> list_Back (lruList c) = Some e ->
  lruMap c !! elem_value e = Some e /\ exists it, items c !! elem_value e = Some it.
Proof.
  intros HI Hb. apply (proj1 (last_map_Some _)) in Hb.
  assert (Hk : lruMap c !! elem_value e = Some e) by (apply (inv_index c HI); auto).
  split; [exact Hk|]. exact (Inv_items_Some c _ e HI Hk).
Qed.

Lemma evict_size (c : Cache) : Inv c -> size (items (evict c)) = pred (size (items c)).
Proof.
  intros HI. unfold evict. destruct (list_Back (lruList c)) as [e|] eqn:Hb.
  - destruct (Inv_back_index c e HI Hb) as [_ [it Hit]].
    rewrite removeElement_items by exact HI. apply map_size_delete_Some. eauto.
  - apply (proj2 (last_map_Some _)) in Hb. rewrite <- (Inv_size c HI), Hb. reflexivity.
Qed.

Lemma Inv_items_None_iff (c : Cache) (k : string) :
  Inv c -> items c !! k = None <-> lruMap c !! k = None.
Proof.
  intros HI. pose proof (inv_dom c HI k) as H.
  destruct (items c !! k), (lruMap c !! k); split; intros; try reflexivity; try discriminate.
  - destruct (proj1 H (ex_intro _ _ eq_refl)). discriminate.
  - destruct (proj2 H (ex_intro _ _ eq_refl)). discriminate.
Qed.


(** How [Set] changes [Len()] on a reachable cache: a present key keeps
    the count; a new key adds one while the count is below the
    capacity, and otherwise first evicts one entry (none when the cache
    is empty), so a cache above its capacity (after [LoadFile] or a
    smaller [WithCapacity]) is not brought back to it. With a capacity
    of at least 1, [Set] never makes [Len()] exceed both the previous
    count and the capacity. *)
Theorem Set_Len (w : World) (k : string) (v : Value) (ttl now : Z) :
  Reach w ->
  let c := w_cache w in
  Len (Set_ k v ttl now c) =
    (if Has k c then Len c
     else if (Len c <? Capacity (opt c))%Z then (Len c + 1)%Z else Z.max 1 (Len c)) /\
  ((1 <= Capacity (opt c))%Z -> (Len (Set_ k v ttl now c) <= Z.max (Len c) (Capacity (opt c)))%Z).
Proof.
  intros HR c. assert (HI : Inv c) by exact (Inv_Reach w HR).
  assert (HL : Len (Set_ k v ttl now c) =
    (if Has k c then Len c
     else if (Len c <? Capacity (opt c))%Z then (Len c + 1)%Z else Z.max 1 (Len c))).
  { unfold Len, Has, Set_, setItem.
    destruct (items c !! k) as [it|] eqn:Hi.
    - destruct (lruMap c !! k) as [e|] eqn:Hk.
      + simpl. rewrite map_size_insert_Some by (rewrite Hi; eauto). reflexivity.
      + apply (Inv_items_None_iff c k HI) in Hk. congruence.
    - assert (Hk : lruMap c !! k = None) by (apply (Inv_items_None_iff c k HI), Hi).
      rewrite Hk. unfold list_Len. rewrite (Inv_size c HI).
      destruct (Z.ltb_spec (Z.of_nat (size (items c))) (Capacity (opt c))) as [Hlt|Hge].
      + replace (Z.geb _ _) with false by (symmetry; rewrite Z.geb_leb; apply Z.leb_gt; lia).
        rewrite items_addFront, map_size_insert_None by exact Hi. lia.
      + replace (Z.geb _ _) with true by (symmetry; rewrite Z.geb_leb; apply Z.leb_le; lia).
        rewrite items_addFront, map_size_insert_None.
        * rewrite (evict_size c HI). destruct (size (items c)); simpl; lia.
        * apply (Inv_items_None_iff _ k (Inv_evict c HI)), evict_lruMap_None; assumption. }
  split; [exact HL|]. intros HC. rewrite HL.
  destruct (Has k c); [lia|]. destruct (Z.ltb_spec (Len c) (Capacity (opt c))); lia.
Qed.

Lemma filter_keys_absent (k : string) (l : list string) :
  ~ In k l -> List.filter (fun x => negb (String.eqb x k)) l = l.
Proof.
  induction l as [|x l IH]; simpl; intros H; [reflexivity|].
  destruct (String.eqb_spec x k) as [->|Hne]; [tauto|]. simpl. f_equal. apply IH. tauto.
Qed.

Lemma keys_of_move (c : Cache) (k : string) (e : Element) :
  Inv c -> lruMap c !! k = Some e ->
  keys_of (list_MoveToFront e (lruList c)) =
  k :: List.filter (fun x => negb (String.eqb x k)) (keys_of (lruList c)).
Proof.
  intros HI Hk. destruct (proj1 (inv_index c HI k e) Hk) as [He Hv]. unfold keys_of.
  rewrite (proj1 (list_MoveToFront_perm e (lruList c) (inv_ids c HI) He)). simpl.
  rewrite Hv. f_equal. exact (keys_of_filter c k e HI Hk).
Qed.

(** [Set] of a new key on a reachable cache at or above its capacity
    evicts the key at the back of the recency list (the least recently
    set or read), reports it to the eviction callback when one is
    installed, and puts the new key at the front. *)
Theorem Set_new_key_evicts_back (w : World) (k : string) (v : Value) (ttl now : Z)
    (xs : list string) (k' : string) :
  Reach w -> items (w_cache w) !! k = None ->
  (Capacity (opt (w_cache w)) <= Len (w_cache w))%Z ->
  keys_of (lruList (w_cache w)) = xs ++ [k'] ->
  let c := w_cache w in
  let c' := Set_ k v ttl now c in
  exists it', items c !! k' = Some it' /\
    items c' = <[k := mkItem v (expOf ttl now)]> (delete k' (items c)) /\
    keys_of (lruList c') = k :: xs /\
    evlog c' = (if OnEvicted (opt c) then evlog c ++ [(k', Val it')] else evlog c).
Proof.
  intros HR Hi HC Hkeys c c'. assert (HI : Inv c) by exact (Inv_Reach w HR).
  change (keys_of (lruList c) = xs ++ [k']) in Hkeys.
  assert (Hk : lruMap c !! k = None) by (apply (Inv_items_None_iff c k HI), Hi).
  destruct (list_Back_last (l_elems (lruList c)) xs k' Hkeys) as [e' [Hb Hv]].
  change (list_Back (lruList c) = Some e') in Hb.
  destruct (Inv_back_index c e' HI Hb) as [Hk' [it' Hit']]. rewrite Hv in Hk', Hit'.
  exists it'. split; [exact Hit'|].
  assert (Hev : evict c = mkCache (opt c) (delete k' (items c)) (list_Remove e' (lruList c))
                  (delete k' (lruMap c))
                  (if OnEvicted (opt c) then evlog c ++ [(k', Val it')] else evlog c)).
  { unfold evict. rewrite Hb, Hv, (removeElement_present c k' e' it' Hk' Hit'). reflexivity. }
  assert (Hc' : c' = addFront k (mkItem v (expOf ttl now)) (evict c)).
  { unfold c', Set_, setItem. rewrite Hk. unfold list_Len. rewrite (Inv_size c HI).
    unfold Len in HC. replace (Z.geb _ _) with true; [reflexivity|].
    symmetry. rewrite Z.geb_leb. apply Z.leb_le. exact HC. }
  rewrite Hc', Hev. split; [reflexivity|]. split; [|reflexivity].
  unfold keys_of. simpl. f_equal.
  rewrite (keys_of_filter c k' e' HI Hk'), Hkeys, List.filter_app. simpl.
  rewrite String.eqb_refl. simpl. rewrite app_nil_r. apply filter_keys_absent.
  pose proof (inv_keys c HI) as Hnd. rewrite Hkeys in Hnd.
  apply NoDup_app in Hnd as (_ & Hdis & _). intros Hin.
  apply (Hdis k'); [apply list_elem_of_In, Hin | apply list_elem_of_singleton; reflexivity].
Qed.

(** [Delete] on a reachable cache returns whether the key was stored
    (expired or not), removes it from the entries and the recency list
    (the other keys keep their order), reports a stored entry to the
    eviction callback when one is installed, and a following [Get] of
    the key finds nothing. *)
Theorem Delete_removes (w : World) (k : string) (now : Z) :
  Reach w ->
  let c := w_cache w in
  let c' := snd (Delete k c) in
  fst (Delete k c) = Has k c /\
  items c' = delete k (items c) /\
  keys_of (lruList c') = List.filter (fun x => negb (String.eqb x k)) (keys_of (lruList c)) /\
  evlog c' = match items c !! k with
             | Some it => if OnEvicted (opt c) then evlog c ++ [(k, Val it)] else evlog c
             | None => evlog c
             end /\
  fst (Get k now c') = (VNil, false).
Proof.
  intros HR c c'. assert (HI : Inv c) by exact (Inv_Reach w HR).
  assert (Hitems : items c' = delete k (items c)) by (apply removeElement_items, HI).
  assert (Hget : fst (Get k now c') = (VNil, false))
    by (rewrite (Get_absent k now c'); [reflexivity|]; rewrite Hitems; apply lookup_delete_eq).
  unfold c', Delete, Has. destruct (lruMap c !! k) as [e|] eqn:Hk.
  - destruct (Inv_items_Some c k e HI Hk) as [it Hit].
    unfold c', Delete in Hitems, Hget. rewrite (removeElement_present c k e it Hk Hit) in *.
    rewrite Hit. simpl. repeat split; try assumption.
    exact (keys_of_filter c k e HI Hk).
  - assert (Hi : items c !! k = None) by (apply (Inv_items_None_iff c k HI), Hk).
    unfold c', Delete in Hitems, Hget. rewrite (removeElement_absent c k HI Hk) in *.
    rewrite Hi. simpl. repeat split; try assumption.
    symmetry. apply filter_keys_absent. apply (Inv_lruMap_None_iff c k HI), Hk.
Qed.

(** [Get] of a stored, unexpired key on a reachable cache returns its
    value, leaves the entries and the callback log as they are, and
    moves the key to the front of the recency list, the other keys
    keeping their order. *)
Theorem Get_live_moves_front (w : World) (k : string) (now : Z) (it : Item) :
  Reach w -> items (w_cache w) !! k = Some it -> isExpired it now = false ->
  let c := w_cache w in
  let c' := snd (Get k now c) in
  fst (Get k now c) = (Val it, true) /\ items c' = items c /\ evlog c' = evlog c /\
  keys_of (lruList c') = k :: List.filter (fun x => negb (String.eqb x k)) (keys_of (lruList c)).
Proof.
  intros HR Hi He c c'. assert (HI : Inv c) by exact (Inv_Reach w HR).
  change (items c !! k = Some it) in Hi.
  destruct (proj1 (inv_dom c HI k) (ex_intro _ it Hi)) as [e Hk].
  unfold c', Get. rewrite Hi, He, Hk. simpl.
  repeat split. exact (keys_of_move c k e HI Hk).
Qed.

Lemma mget_loop_step (nowUm : Z) (key : string) (ks : list string) (res : gmap string Value)
    (c : Cache) :
  exists c'', items c'' = items c /\ evlog c'' = evlog c /\
    mget_loop nowUm (key :: ks) res c =
    mget_loop nowUm ks (<[key := match items c !! key with
                                 | Some it => if isExpired1 it nowUm then VNil else Val it
                                 | None => VNil
                                 end]> res) c''.
Proof.
  simpl. destruct (items c !! key) as [it|]; [|exists c; auto].
  destruct (isExpired1 it nowUm); [exists c; auto|].
  destruct (lruMap c !! key) as [e|];
    [exists (with_lru (list_MoveToFront e (lruList c)) (lruMap c) c) | exists c]; auto.
Qed.

Lemma mget_loop_result (nowUm : Z) (c0 : Cache) (ks : list string) :
  forall res c, items c = items c0 -> evlog c = evlog c0 ->
  (forall k, In k ks -> fst (mget_loop nowUm ks res c) !! k =
     Some match items c0 !! k with
          | Some it => if isExpired1 it nowUm then VNil else Val it
          | None => VNil
          end) /\
  (forall k, ~ In k ks -> fst (mget_loop nowUm ks res c) !! k = res !! k) /\
  evlog (snd (mget_loop nowUm ks res c)) = evlog c0.
Proof.
  induction ks as [|key ks IH]; intros res c Hi He.
  - split; [intros k []|]. split; [reflexivity|exact He].
  - destruct (mget_loop_step nowUm key ks res c) as (c'' & Hi'' & He'' & ->).
    rewrite Hi.
    set (val := match items c0 !! key with
                | Some it => if isExpired1 it nowUm then VNil else Val it
                | None => VNil
                end).
    destruct (IH (<[key := val]> res) c'') as (Hin & Hout & Hev); [congruence|congruence|].
    split; [|split; [|exact Hev]].
    + intros k [Heq|Hk]; [|exact (Hin k Hk)]. subst k.
      destruct (in_dec String.string_dec key ks) as [Hk|Hk]; [exact (Hin key Hk)|].
      rewrite (Hout key Hk). apply lookup_insert_eq.
    + intros k Hk. simpl in Hk. rewrite Hout by tauto. apply lookup_insert_ne. intros ->. tauto.
Qed.

(** [MGet] returns a map whose keys are exactly the requested ones:
    each maps to the stored value when the entry has not expired, and to
    nil when it is missing or expired. It never adds, changes or removes
    an entry and never calls the eviction callback. *)
Theorem MGet_result (ks : list string) (now : Z) (c : Cache) :
  (forall k, In k ks -> fst (MGet ks now c) !! k =
     Some match items c !! k with
          | Some it => if isExpired it now then VNil else Val it
          | None => VNil
          end) /\
  (forall k, ~ In k ks -> fst (MGet ks now c) !! k = None) /\
  items (snd (MGet ks now c)) = items c /\ evlog (snd (MGet ks now c)) = evlog c.
Proof.
  unfold MGet.
  destruct (mget_loop_result (UnixMilli now) c ks ∅ c eq_refl eq_refl) as (Hin & Hout & Hev).
  split; [exact Hin|]. split; [intros k Hk; rewrite (Hout k Hk); apply lookup_empty|].
  split; [apply mget_loop_items|exact Hev].
Qed.

Lemma setItem_room (k : string) (v : Value) (exp : Z) (c : Cache) :
  Inv c -> (is_Some (items c !! k) \/ (Z.of_nat (size (items c)) < Capacity (opt c))%Z) ->
  items (setItem k v exp c) = <[k := mkItem v exp]> (items c) /\
  evlog (setItem k v exp c) = evlog c /\ opt (setItem k v exp c) = opt c.
Proof.
  intros HI Hroom. unfold setItem. destruct (lruMap c !! k) as [e|] eqn:Hk; [auto|].
  assert (Hi : items c !! k = None) by (apply (Inv_items_None_iff c k HI), Hk).
  destruct Hroom as [[it Hs]|Hlt]; [congruence|].
  unfold list_Len. rewrite (Inv_size c HI).
  replace (Z.geb _ _) with false by (symmetry; rewrite Z.geb_leb; apply Z.leb_gt; lia).
  rewrite items_addFront. auto.
Qed.

Lemma mset_loop_room (kvs : list (string * Value)) (exp : Z) (c : Cache) :
  Inv c -> NoDup (map fst kvs) ->
  (Z.of_nat (size (items c) + length kvs) <= Capacity (opt c))%Z ->
  (forall k v, In (k, v) kvs -> items (mset_loop kvs exp c) !! k = Some (mkItem v exp)) /\
  (forall k, ~ In k (map fst kvs) -> items (mset_loop kvs exp c) !! k = items c !! k) /\
  evlog (mset_loop kvs exp c) = evlog c.
Proof.
  revert c. induction kvs as [|[k0 v0] kvs IH]; intros c HI Hnd Hroom; simpl.
  - split; [intros k v []|auto].
  - apply NoDup_ListNoDup in Hnd. inversion Hnd as [|? ? Hk0 Hnd']. subst.
    apply NoDup_ListNoDup in Hnd'. simpl in Hroom.
    destruct (setItem_room k0 v0 exp c HI) as (Hi1 & He1 & Ho1); [right; lia|].
    set (c1 := setItem k0 v0 exp c) in *.
    assert (Hs1 : (size (items c1) <= S (size (items c)))%nat).
    { rewrite Hi1, map_size_insert. destruct (items c !! k0); simpl; lia. }
    destruct (IH c1) as (Hin & Hout & Hev);
      [apply Inv_setItem, HI | exact Hnd' | rewrite Ho1; lia |].
    split; [|split].
    + intros k v [Heq|Hk].
      * injection Heq as <- <-. rewrite (Hout k0 Hk0), Hi1. apply lookup_insert_eq.
      * exact (Hin k v Hk).
    + intros k Hk. rewrite Hout by tauto. rewrite Hi1. apply lookup_insert_ne. intros ->. tauto.
    + rewrite Hev. exact He1.
Qed.

Lemma in_map_to_list_value (m : gmap string Value) (k : string) (v : Value) :
  In (k, v) (map_to_list m) <-> m !! k = Some v.
Proof. rewrite <- list_elem_of_In. apply elem_of_map_to_list. Qed.

(** [MSet] on a reachable cache with room for all its pairs
    ([Len()] plus the number of pairs at most the capacity) stores every
    pair with the common expiry, keeps every other entry, and evicts
    nothing (no callback is called). *)
Theorem MSet_with_room (w : World) (m : gmap string Value) (ttl now : Z) :
  Reach w ->
  (Len (w_cache w) + Z.of_nat (size m) <= Capacity (opt (w_cache w)))%Z ->
  let c := w_cache w in
  (forall k, items (MSet m ttl now c) !! k =
     match m !! k with
     | Some v => Some (mkItem v (expOf ttl now))
     | None => items c !! k
     end) /\
  evlog (MSet m ttl now c) = evlog c.
Proof.
  intros HR Hroom c. assert (HI : Inv c) by exact (Inv_Reach w HR).
  assert (Hnd : NoDup (map fst (map_to_list m))).
  { rewrite <- fmap_is_map. apply NoDup_fst_map_to_list. }
  destruct (mset_loop_room (map_to_list m) (expOf ttl now) c HI Hnd) as (Hin & Hout & Hev).
  { rewrite length_map_to_list. unfold Len in Hroom. rewrite Nat2Z.inj_add. exact Hroom. }
  split; [|exact Hev]. intros k. unfold MSet. destruct (m !! k) as [v|] eqn:Hk.
  - apply Hin, in_map_to_list_value, Hk.
  - apply Hout. intros Hin'. apply in_map_iff in Hin' as ([k' v] & <- & Hk').
    apply in_map_to_list_value in Hk'. simpl in *. congruence.
Qed.

Lemma load_loop_evlog_opt (nowUm : Z) (kvs : list (string * Item)) (c : Cache) :
  evlog (load_loop nowUm kvs c) = evlog c /\ opt (load_loop nowUm kvs c) = opt c.
Proof.
  revert c. induction kvs as [|[k v] kvs IH]; intros c; simpl; [auto|].
  destruct (isExpired1 v nowUm); simpl; [apply IH|].
  destruct (IH (addFront k v c)) as [H1 H2]. rewrite H1, H2. split; reflexivity.
Qed.

(** A successful [LoadFile] replaces all entries by the entries of the
    decoded file that have not expired (however many there are: the
    capacity is not applied), keeps the options, and calls no eviction
    callback for the entries it discards. *)
Theorem LoadFile_success_replaces (f : string) (now : Z) (reg : gmap string SerializerIface)
    (c c' : Cache) (fs : FS) :
  LoadFile f now reg c fs = (None, c') ->
  exists s d data, os_Open fs f = inr d /\ serializer reg c = inr s /\ DecodeFrom s d = inr data /\
    (forall k, items c' !! k =
       match data !! k with
       | Some it => if isExpired1 it (UnixMilli now) then None else Some it
       | None => None
       end) /\
    evlog c' = evlog c /\ opt c' = opt c.
Proof.
  unfold LoadFile. destruct (os_Open fs f) as [err|d] eqn:Ho; [discriminate|].
  destruct (serializer reg c) as [err|s] eqn:Hs; [discriminate|].
  destruct (DecodeFrom s d) as [err|data] eqn:Hd; [discriminate|].
  intros H. injection H as <-. exists s, d, data. split; [first [exact Ho|reflexivity]|].
  split; [first [exact Hs|reflexivity]|]. split; [first [exact Hd|reflexivity]|].
  assert (Hnd : NoDup (map fst (map_to_list data))).
  { rewrite <- fmap_is_map. apply NoDup_fst_map_to_list. }
  destruct (load_loop_items (UnixMilli now) (map_to_list data) (reset c) Hnd) as [Lin Lout].
  destruct (load_loop_evlog_opt (UnixMilli now) (map_to_list data) (reset c)) as [He Hop].
  split; [|split; [exact He|exact Hop]].
  intros k. destruct (data !! k) as [it|] eqn:Hk.
  - rewrite (Lin k it (proj2 (in_map_to_list_iff data k it) Hk)).
    destruct (isExpired1 it (UnixMilli now)); reflexivity.
  - rewrite Lout; [apply lookup_empty|]. intros Hin.
    apply in_map_iff in Hin as ([k' it] & <- & Hk'). apply in_map_to_list_iff in Hk'.
    simpl in *. congruence.
Qed.

(** When some entry is live and the file can be written, [SaveFile]
    with the resolved serializer [s] writes what [s.EncodeTo] produces
    for the map of exactly the unexpired entries, returns its error,
    changes no other file and leaves the cache alone. *)
Theorem SaveFile_writes_live (f : string) (now : Z) (reg : gmap string SerializerIface)
    (c : Cache) (fs : FS) (s : SerializerIface) :
  live_entries (UnixMilli now) (items c) <> [] -> f ∉ denied fs ->
  reg !! Serializer (opt c) = Some s ->
  exists data,
    (forall k, data !! k =
       match items c !! k with
       | Some it => if isExpired1 it (UnixMilli now) then None else Some it
       | None => None
       end) /\
    SaveFile f now reg c fs =
      (snd (EncodeTo s data), mkFS (<[f := fst (EncodeTo s data)]> (files fs)) (denied fs) (unreadable fs)) /\
    w_cache (exec now (OpSaveFile f) (mkWorld c reg fs)) = c.
Proof.
  intros Hl Hd Hr.
  exists (list_to_map (live_entries (UnixMilli now) (items c))).
  split; [intros k; apply lookup_live_map|]. split; [|reflexivity].
  unfold SaveFile.
  destruct (decide (size _ = 0%nat)) as [H0|_];
    [exfalso; exact (list_to_map_nonempty_size _ Hl H0)|].
  unfold OpenTruncFile. destruct (decide (f ∈ denied fs)); [contradiction|].
  unfold serializer. rewrite Hr.
  destruct (EncodeTo s _) as [doc err]. unfold write_file. simpl. rewrite insert_insert_eq.
  reflexivity.
Qed.

(** [Clear] (through [reset]) leaves no entry: [Len()] is 0, [Keys()]
    is empty, the recency list is empty and every [Get] misses; the
    options are kept and no eviction callback is called. *)
Theorem Clear_empties (c : Cache) (k : string) (now : Z) :
  Len (Clear c) = 0%Z /\ Keys now (Clear c) = [] /\ keys_of (lruList (Clear c)) = [] /\
  fst (Get k now (Clear c)) = (VNil, false) /\
  evlog (Clear c) = evlog c /\ opt (Clear c) = opt c.
Proof.
  unfold Clear, reset, Len, Keys, live_entries, Get. cbn [items lruList evlog opt].
  rewrite map_to_list_empty, lookup_empty, map_size_empty. repeat split.
Qed.

(** [Val(key)] is the value [Get] returns: the stored value of a live
    entry and nil for an absent or expired one, with the same effect on
    the cache as [Get]. *)
Theorem Val_result (k : string) (now : Z) (c : Cache) :
  fst (Val_ k now c) =
    match items c !! k with
    | Some it => if isExpired it now then VNil else Val it
    | None => VNil
    end /\
  snd (Val_ k now c) = snd (Get k now c).
Proof.
  assert (HG' : fst (Get k now c) =
    match items c !! k with
    | Some it => if isExpired it now then (VNil, false) else (Val it, true)
    | None => (VNil, false)
    end).
  { destruct (items c !! k) as [it|] eqn:Hk.
    - destruct (isExpired it now) eqn:He;
        [exact (Get_expired_fst k now c it Hk He) | exact (Get_live k now c it Hk He)].
    - rewrite (Get_absent k now c Hk). reflexivity. }
  unfold Val_. destruct (Get k now c) as [[v b] c'] eqn:HG. simpl in HG' |- *.
  split; [|reflexivity].
  destruct (items c !! k) as [it|]; [destruct (isExpired it now)|]; congruence.
Qed.

(** ** What removes an expired entry *)















(** ** Instances of the further theorems on concrete inputs *)




Lemma Has_sees_expired_entry_witness :
  let it := mkItem (VInt 1) 1 in
  items cache_with_expired !! "a" = Some it /\ isExpired it ten_ms = true /\
  (Has "a" cache_with_expired = true /\
   fst (Get "a" ten_ms cache_with_expired) = (VNil, false) /\
   Has "a" (snd (Get "a" ten_ms cache_with_expired)) = false).
Proof.
  intros it.
  assert (h1 : items cache_with_expired !! "a" = Some it) by (vm_compute; reflexivity).
  assert (h2 : isExpired it ten_ms = true) by reflexivity.
  exact (conj h1 (conj h2 (Has_sees_expired_entry "a" ten_ms cache_with_expired it h1 h2))).
Defined.

Lemma Set_Len_witness :
  let w := exec 0 (OpSet "a" (VInt 1) 0) (mkWorld (New []) serializers0 (mkFS ∅ ∅ ∅)) in
  Reach w /\
  (let c := w_cache w in
   Len (Set_ "b" (VInt 2) 0 0 c) =
     (if Has "b" c then Len c
      else if (Len c <? Capacity (opt c))%Z then (Len c + 1)%Z else Z.max 1 (Len c)) /\
   ((1 <= Capacity (opt c))%Z ->
    (Len (Set_ "b" (VInt 2) 0 0 c) <= Z.max (Len c) (Capacity (opt c)))%Z)).
Proof.
  intros w.
  assert (h : Reach w) by exact (Reach_step 0 _ _ (Reach_New [] serializers0 (mkFS ∅ ∅ ∅))).
  exact (conj h (Set_Len w "b" (VInt 2) 0 0 h)).
Defined.

Lemma Set_new_key_evicts_back_witness :
  let w := exec 0 (OpSet "a" (VInt 1) 0)
             (mkWorld (New [WithCapacity 1; WithOnEvictFn true]) serializers0 (mkFS ∅ ∅ ∅)) in
  Reach w /\ items (w_cache w) !! "b" = None /\
  (Capacity (opt (w_cache w)) <= Len (w_cache w))%Z /\
  keys_of (lruList (w_cache w)) = [] ++ ["a"] /\
  (let c := w_cache w in
   let c' := Set_ "b" (VInt 2) 0 0 c in
   exists it', items c !! "a" = Some it' /\
     items c' = <["b" := mkItem (VInt 2) (expOf 0 0)]> (delete "a" (items c)) /\
     keys_of (lruList c') = ["b"] /\
     evlog c' = (if OnEvicted (opt c) then evlog c ++ [("a", Val it')] else evlog c)).
Proof.
  intros w.
  assert (h1 : Reach w)
    by exact (Reach_step 0 _ _ (Reach_New [WithCapacity 1; WithOnEvictFn true] serializers0
                                  (mkFS ∅ ∅ ∅))).
  assert (h2 : items (w_cache w) !! "b" = None) by (vm_compute; reflexivity).
  assert (h3 : (Capacity (opt (w_cache w)) <= Len (w_cache w))%Z) by (vm_compute; discriminate).
  assert (h4 : keys_of (lruList (w_cache w)) = [] ++ ["a"]) by (vm_compute; reflexivity).
  exact (conj h1 (conj h2 (conj h3 (conj h4
    (Set_new_key_evicts_back w "b" (VInt 2) 0 0 [] "a" h1 h2 h3 h4))))).
Defined.

Lemma Delete_removes_witness :
  let w := exec 0 (OpSet "a" (VInt 1) 0) (mkWorld (New []) serializers0 (mkFS ∅ ∅ ∅)) in
  Reach w /\
  (let c := w_cache w in
   let c' := snd (Delete "a" c) in
   fst (Delete "a" c) = Has "a" c /\
   items c' = delete "a" (items c) /\
   keys_of (lruList c') = List.filter (fun x => negb (String.eqb x "a")) (keys_of (lruList c)) /\
   evlog c' = match items c !! "a" with
              | Some it => if OnEvicted (opt c) then evlog c ++ [("a", Val it)] else evlog c
              | None => evlog c
              end /\
   fst (Get "a" 0 c') = (VNil, false)).
Proof.
  intros w.
  assert (h : Reach w) by exact (Reach_step 0 _ _ (Reach_New [] serializers0 (mkFS ∅ ∅ ∅))).
  exact (conj h (Delete_removes w "a" 0 h)).
Defined.

Lemma Get_live_moves_front_witness :
  let w := exec 0 (OpSet "a" (VInt 1) 0) (mkWorld (New []) serializers0 (mkFS ∅ ∅ ∅)) in
  let it := mkItem (VInt 1) 0 in
  Reach w /\ items (w_cache w) !! "a" = Some it /\ isExpired it 0 = false /\
  (let c := w_cache w in
   let c' := snd (Get "a" 0 c) in
   fst (Get "a" 0 c) = (Val it, true) /\ items c' = items c /\ evlog c' = evlog c /\
   keys_of (lruList c') = "a" :: List.filter (fun x => negb (String.eqb x "a"))
                                  (keys_of (lruList c))).
Proof.
  intros w it.
  assert (h1 : Reach w) by exact (Reach_step 0 _ _ (Reach_New [] serializers0 (mkFS ∅ ∅ ∅))).
  assert (h2 : items (w_cache w) !! "a" = Some it) by (vm_compute; reflexivity).
  assert (h3 : isExpired it 0 = false) by reflexivity.
  exact (conj h1 (conj h2 (conj h3 (Get_live_moves_front w "a" 0 it h1 h2 h3)))).
Defined.

Lemma MSet_with_room_witness :
  let w := exec 0 (OpSet "a" (VInt 1) 0) (mkWorld (New []) serializers0 (mkFS ∅ ∅ ∅)) in
  let m : gmap string Value := {[ "b" := VInt 2 ]} in
  Reach w /\ (Len (w_cache w) + Z.of_nat (size m) <= Capacity (opt (w_cache w)))%Z /\
  (let c := w_cache w in
   (forall k, items (MSet m 0 0 c) !! k =
      match m !! k with
      | Some v => Some (mkItem v (expOf 0 0))
      | None => items c !! k
      end) /\
   evlog (MSet m 0 0 c) = evlog c).
Proof.
  intros w m.
  assert (h1 : Reach w) by exact (Reach_step 0 _ _ (Reach_New [] serializers0 (mkFS ∅ ∅ ∅))).
  assert (h2 : (Len (w_cache w) + Z.of_nat (size m) <= Capacity (opt (w_cache w)))%Z)
    by (vm_compute; discriminate).
  exact (conj h1 (conj h2 (MSet_with_room w m 0 0 h1 h2))).
Defined.

Lemma LoadFile_success_replaces_witness :
  let fs := mkFS {[ "f" := DocJson (JObj [("a", JObj [("v", JNum 1); ("e", JNum 0)])]) ]} ∅ ∅ in
  let c' := snd (LoadFile "f" 0 serializers0 (New []) fs) in
  LoadFile "f" 0 serializers0 (New []) fs = (None, c') /\
  exists s d data, os_Open fs "f" = inr d /\ serializer serializers0 (New []) = inr s /\
    DecodeFrom s d = inr data /\
    (forall k, items c' !! k =
       match data !! k with
       | Some it => if isExpired1 it (UnixMilli 0) then None else Some it
       | None => None
       end) /\
    evlog c' = evlog (New []) /\ opt c' = opt (New []).
Proof.
  intros fs c'.
  assert (h : LoadFile "f" 0 serializers0 (New []) fs = (None, c')) by (vm_compute; reflexivity).
  exact (conj h (LoadFile_success_replaces "f" 0 serializers0 (New []) c' fs h)).
Defined.

Lemma SaveFile_writes_live_witness :
  let c := Set_ "a" (VInt 1) 0 0 (New []) in
  let fs := mkFS ∅ ∅ ∅ in
  live_entries (UnixMilli 1) (items c) <> [] /\ ("f" ∉ denied fs) /\
  serializers0 !! Serializer (opt c) = Some JSONSerializer /\
  exists data,
    (forall k, data !! k =
       match items c !! k with
       | Some it => if isExpired1 it (UnixMilli 1) then None else Some it
       | None => None
       end) /\
    SaveFile "f" 1 serializers0 c fs =
      (snd (EncodeTo JSONSerializer data),
       mkFS (<["f" := fst (EncodeTo JSONSerializer data)]> (files fs)) (denied fs) (unreadable fs)) /\
    w_cache (exec 1 (OpSaveFile "f") (mkWorld c serializers0 fs)) = c.
Proof.
  intros c fs.
  assert (h1 : live_entries (UnixMilli 1) (items c) <> []) by (vm_compute; discriminate).
  assert (h2 : "f" ∉ denied fs) by (apply (bool_decide_unpack _); vm_compute; reflexivity).
  assert (h3 : serializers0 !! Serializer (opt c) = Some JSONSerializer) by reflexivity.
  exact (conj h1 (conj h2 (conj h3
    (SaveFile_writes_live "f" 1 serializers0 c fs JSONSerializer h1 h2 h3)))).
Defined.

End LCache.
